(** * Software fallback atomics of src/backend/port/atomics.c

    The translation unit provides, for platforms without native support,
    - [pg_spinlock_barrier]: a memory barrier emulated by a system call,
    - [pg_extern_compiler_barrier]: a compiler barrier emulated by an
      opaque empty function,
    - [pg_atomic_init_u64_impl], [pg_atomic_compare_exchange_u64_impl] and
      [pg_atomic_fetch_add_u64_impl]: 64-bit atomics emulated under a
      spinlock embedded in the atomic variable.

    The C functions are embedded once, as programs over the primitive
    memory, lock and system-call operations they perform.  The programs
    are given two semantics: a sequential one ([run], one execution context
    running a call to completion) and an interleaving one ([context_step],
    several execution contexts sharing the atomic variables). *)

From Stdlib Require Import ZArith String Lia.
From stdpp Require Import base tactics option list gmap.

Local Open Scope Z_scope.

(** ** Machine integers *)

(** [uint64] and [int64] values are integers in [Z]; every conversion and
    every wrap-around is written out. *)
Definition UINT64_MODULUS : Z := 2 ^ 64.

Definition is_uint64 (v : Z) : Prop := 0 ≤ v < UINT64_MODULUS.
Definition is_int64 (v : Z) : Prop := - 2 ^ 63 ≤ v < 2 ^ 63.

(** Conversion of an [int64] operand to [uint64] (the usual arithmetic
    conversion applied to [add_] in [ptr->value += add_]). *)
Definition uint64_of_int64 (d : Z) : Z := d mod UINT64_MODULUS.

(** Addition of two [uint64] operands. *)
Definition uint64_add (a b : Z) : Z := (a + b) mod UINT64_MODULUS.

(** ** Memory *)

Definition loc := positive.
Bind Scope positive_scope with loc.

(** Modelled from the spec: [slock_t] and the macros [SpinLockInit],
    [SpinLockAcquire] and [SpinLockRelease] come from storage/spin.h, which
    is not part of the sources at hand.  The guard is an exclusive-access
    token with the two states unlocked and locked; acquiring busy-waits
    without timeout until the guard is unlocked and then locks it;
    releasing unlocks it; initialising sets it to unlocked. *)
Inductive slock_t := Unlocked | Locked.

#[global] Instance slock_t_eq_dec : EqDecision slock_t.
Proof. solve_decision. Defined.

(** Modelled from the spec: the type [pg_atomic_uint64] of the simulation
    is declared in port/atomics/fallback.h, which is not part of the
    sources at hand.  An atomic variable has the two attributes the
    functions access: the guard [sema] and the payload [value], a 64-bit
    unsigned integer. *)
Record pg_atomic_uint64 := Build_pg_atomic_uint64 {
  sema : slock_t;
  value : Z
}.

(** Memory shared between execution contexts: the atomic variables, by
    address.  An address outside the map is not valid storage. *)
Abbreviation shared := (gmap loc pg_atomic_uint64).

(** Memory private to one execution context: plain [uint64] objects (the
    targets of [expected]), the global [PostmasterPid] of miscadmin.h, and
    the identity of the context itself (what getpid() would answer; no
    function of this file reads it). *)
Record private := Build_private {
  vars : gmap loc Z;
  PostmasterPid : Z;
  MyProcPid : Z
}.

Record state := Build_state {
  shm : shared;
  priv : private
}.

Definition set_shm (s : state) (m : shared) : state :=
  {| shm := m; priv := priv s |}.

Definition set_vars (s : state) (m : gmap loc Z) : state :=
  {| shm := shm s;
     priv := {| vars := m; PostmasterPid := PostmasterPid (priv s);
                MyProcPid := MyProcPid (priv s) |} |}.

(** ** Primitive operations and programs *)

(** The primitive steps of the C code, indexed by the type of what they
    yield. *)
Inductive op : Type → Type :=
| OpSpinLockInit (p : loc) : op unit
| OpSpinLockAcquire (p : loc) : op unit
| OpSpinLockRelease (p : loc) : op unit
| OpLoadValue (p : loc) : op Z            (* read of ptr->value *)
| OpStoreValue (p : loc) (v : Z) : op unit (* write of ptr->value *)
| OpLoadVar (q : loc) : op Z              (* read of *q, q a uint64 pointer *)
| OpStoreVar (q : loc) (v : Z) : op unit   (* write of *q *)
| OpLoadPostmasterPid : op Z
| OpKill (pid sig : Z) : op Z.            (* kill(2), yields its return value *)

(** A program yields a result or performs a primitive step and continues
    with what the step yielded. *)
Inductive prog (A : Type) : Type :=
| Ret (a : A)
| Vis {X : Type} (e : op X) (k : X → prog A).
Arguments Ret {A} a.
Arguments Vis {A X} e k.

Fixpoint bind {A B : Type} (m : prog A) (f : A → prog B) : prog B :=
  match m with
  | Ret a => f a
  | Vis e k => Vis e (λ x, bind (k x) f)
  end.

#[global] Instance prog_ret : MRet prog := @Ret.
#[global] Instance prog_bind : MBind prog := λ A B f m, bind m f.

Definition perform {X : Type} (e : op X) : prog X := Vis e Ret.

Definition SpinLockInit (p : loc) : prog unit := perform (OpSpinLockInit p).
Definition SpinLockAcquire (p : loc) : prog unit := perform (OpSpinLockAcquire p).
Definition SpinLockRelease (p : loc) : prog unit := perform (OpSpinLockRelease p).
Definition load_value (p : loc) : prog Z := perform (OpLoadValue p).
Definition store_value (p : loc) (v : Z) : prog unit := perform (OpStoreValue p v).
Definition load_var (q : loc) : prog Z := perform (OpLoadVar q).
Definition store_var (q : loc) (v : Z) : prog unit := perform (OpStoreVar q v).
Definition load_PostmasterPid : prog Z := perform OpLoadPostmasterPid.
Definition kill (pid sig : Z) : prog Z := perform (OpKill pid sig).

(** ** The functions of atomics.c *)

(** [(void) kill(PostmasterPid, 0);] *)
Definition pg_spinlock_barrier : prog unit :=
  pid ← load_PostmasterPid;
  _ ← kill pid 0;
  mret tt.

(** The body is empty. *)
Definition pg_extern_compiler_barrier : prog unit :=
  mret tt.

(** The static assertion of the C body generates no code; it is embedded
    with the build, see [atomics_c_static_assertions]. *)
Definition pg_atomic_init_u64_impl (ptr : loc) (val_ : Z) : prog unit :=
  SpinLockInit ptr;;
  store_value ptr val_.

(** [ptr->value] is volatile: each of its occurrences is an access. *)
Definition pg_atomic_compare_exchange_u64_impl
    (ptr : loc) (expected : loc) (newval : Z) : prog bool :=
  SpinLockAcquire ptr;;
  v ← load_value ptr;
  e ← load_var expected;
  let ret := bool_decide (v = e) in
  v' ← load_value ptr;
  store_var expected v';;
  (if ret then store_value ptr newval else mret tt);;
  SpinLockRelease ptr;;
  mret ret.

Definition pg_atomic_fetch_add_u64_impl (ptr : loc) (add_ : Z) : prog Z :=
  SpinLockAcquire ptr;;
  oldval ← load_value ptr;
  cur ← load_value ptr;
  store_value ptr (uint64_add cur (uint64_of_int64 add_));;
  SpinLockRelease ptr;;
  mret oldval.

(** ** Semantics of the primitive operations *)

(** What a primitive step did, with the values it read or wrote. *)
Inductive action :=
| ASpinLockInit (p : loc)
| ASpinLockAcquire (p : loc)
| ASpinLockRelease (p : loc)
| ALoadValue (p : loc) (v : Z)
| AStoreValue (p : loc) (v : Z)
| ALoadVar (q : loc) (v : Z)
| AStoreVar (q : loc) (v : Z)
| ALoadPostmasterPid (pid : Z)
| AKill (pid sig ret : Z).

#[global] Instance action_eq_dec : EqDecision action.
Proof. solve_decision. Defined.

Definition action_of {X : Type} (e : op X) : X → action :=
  match e in op X return X → action with
  | OpSpinLockInit p => λ _, ASpinLockInit p
  | OpSpinLockAcquire p => λ _, ASpinLockAcquire p
  | OpSpinLockRelease p => λ _, ASpinLockRelease p
  | OpLoadValue p => λ v, ALoadValue p v
  | OpStoreValue p v => λ _, AStoreValue p v
  | OpLoadVar q => λ v, ALoadVar q v
  | OpStoreVar q v => λ _, AStoreVar q v
  | OpLoadPostmasterPid => λ pid, ALoadPostmasterPid pid
  | OpKill pid sig => λ ret, AKill pid sig ret
  end.

(** One primitive step either completes, cannot complete now because the
    guard it waits for is held ([Blocked]: the context keeps spinning), or
    goes through an address that is not valid storage ([Fault]). *)
Inductive step_result (X : Type) :=
| Stepped (x : X) (s : state)
| Blocked
| Fault.
Arguments Stepped {X} x s.
Arguments Blocked {X}.
Arguments Fault {X}.

Definition set_sema (l : slock_t) (c : pg_atomic_uint64) : pg_atomic_uint64 :=
  {| sema := l; value := value c |}.
Definition set_value (v : Z) (c : pg_atomic_uint64) : pg_atomic_uint64 :=
  {| sema := sema c; value := v |}.

(** The kernel's answer to kill(pid, sig) is not determined by this file;
    it is a parameter of the semantics. *)
Definition exec_op (kernel : Z → Z → Z) {X : Type} (e : op X) (s : state)
    : step_result X :=
  match e in op X return step_result X with
  | OpSpinLockInit p =>
      match shm s !! p with
      | Some c => Stepped tt (set_shm s (<[p := set_sema Unlocked c]> (shm s)))
      | None => Fault
      end
  | OpSpinLockAcquire p =>
      match shm s !! p with
      | Some c =>
          match sema c with
          | Unlocked => Stepped tt (set_shm s (<[p := set_sema Locked c]> (shm s)))
          | Locked => Blocked
          end
      | None => Fault
      end
  | OpSpinLockRelease p =>
      match shm s !! p with
      | Some c => Stepped tt (set_shm s (<[p := set_sema Unlocked c]> (shm s)))
      | None => Fault
      end
  | OpLoadValue p =>
      match shm s !! p with
      | Some c => Stepped (value c) s
      | None => Fault
      end
  | OpStoreValue p v =>
      match shm s !! p with
      | Some c => Stepped tt (set_shm s (<[p := set_value v c]> (shm s)))
      | None => Fault
      end
  | OpLoadVar q =>
      match vars (priv s) !! q with
      | Some v => Stepped v s
      | None => Fault
      end
  | OpStoreVar q v =>
      match vars (priv s) !! q with
      | Some _ => Stepped tt (set_vars s (<[q := v]> (vars (priv s))))
      | None => Fault
      end
  | OpLoadPostmasterPid => Stepped (PostmasterPid (priv s)) s
  | OpKill pid sig => Stepped (kernel pid sig) s
  end.

(** ** Sequential semantics: one context runs a program to completion *)

(** A context running alone that finds the guard held waits forever
    ([Stall]): nobody is there to release it. *)
Inductive outcome (A : Type) :=
| Done (a : A) (s : state) (tr : list action)
| Stall
| Crash.
Arguments Done {A} a s tr.
Arguments Stall {A}.
Arguments Crash {A}.

Fixpoint run (kernel : Z → Z → Z) {A : Type} (m : prog A) (s : state)
    : outcome A :=
  match m with
  | Ret a => Done a s []
  | Vis e k =>
      match exec_op kernel e s with
      | Stepped x s' =>
          match run kernel (k x) s' with
          | Done a s'' tr => Done a s'' (action_of e x :: tr)
          | Stall => Stall
          | Crash => Crash
          end
      | Blocked => Stall
      | Fault => Crash
      end
  end.

Definition is_lock_action (a : action) : bool :=
  match a with
  | ASpinLockInit _ | ASpinLockAcquire _ | ASpinLockRelease _ => true
  | _ => false
  end.

Definition is_syscall (a : action) : bool :=
  match a with
  | AKill _ _ _ => true
  | _ => false
  end.

(** The process a system call is aimed at. *)
Definition syscall_target (a : action) : option Z :=
  match a with
  | AKill pid _ _ => Some pid
  | _ => None
  end.

(** The barrier, run in state [s], makes one system call and aims it at
    the calling process itself. *)
Definition barrier_signals_self (kernel : Z → Z → Z) (s : state) : Prop :=
  ∃ s' tr a,
    run kernel pg_spinlock_barrier s = Done tt s' tr ∧
    filter is_syscall tr = [a] ∧
    syscall_target a = Some (MyProcPid (priv s)).

(** ** Build-time checks *)

(** What the build needs to know of the platform: the size reserved for
    the guard in [pg_atomic_uint64] and the size of the platform's
    [slock_t].  Both come from headers outside this file. *)
Record platform := Build_platform {
  sizeof_sema : Z;
  sizeof_slock_t : Z
}.

Inductive build (A : Type) :=
| Built (a : A)
| BuildError (msg : string).
Arguments Built {A} a.
Arguments BuildError {A} msg.

(** Modelled from the spec: the macro [StaticAssertDecl] comes from c.h,
    which is not part of the sources at hand.  The condition is verified
    at compile time; when it is false the build fails, with the message;
    no code is generated. *)
Definition StaticAssertDecl (condition : bool) (errmessage : string)
    : build unit :=
  if condition then Built tt else BuildError errmessage.

(** The runtime functions of the atomic-variable simulation. *)
Record atomic_u64_simulation := Build_atomic_u64_simulation {
  init_u64 : loc → Z → prog unit;
  compare_exchange_u64 : loc → loc → Z → prog bool;
  fetch_add_u64 : loc → Z → prog Z
}.

(** Compiling the part of the file under [PG_HAVE_ATOMIC_U64_SIMULATION]:
    the static assertion in the body of [pg_atomic_init_u64_impl] is
    evaluated by the compiler, then the three functions exist. *)
Definition atomics_c_static_assertions (P : platform) : build unit :=
  StaticAssertDecl (sizeof_sema P >=? sizeof_slock_t P)
                   "size mismatch of atomic_uint64 vs slock_t".

Definition compile_atomic_u64_simulation (P : platform)
    : build atomic_u64_simulation :=
  match atomics_c_static_assertions P with
  | Built _ =>
      Built {| init_u64 := pg_atomic_init_u64_impl;
               compare_exchange_u64 := pg_atomic_compare_exchange_u64_impl;
               fetch_add_u64 := pg_atomic_fetch_add_u64_impl |}
  | BuildError msg => BuildError msg
  end.

(** ** Guard discipline *)

(** Where a call on the variable at [ptr] stands with respect to its
    guard: it has not acquired it yet, it holds it, or it has released
    it. *)
Inductive phase := Before | Inside | After.

#[global] Instance phase_eq_dec : EqDecision phase.
Proof. solve_decision. Defined.

(** A program follows the discipline from phase [ph] on when, on every
    path, it acquires the guard of [ptr] only in phase [Before], touches
    [ptr->value] and releases the guard only while holding it, returns
    only after the release, and performs no other shared or external
    step.  Steps on private objects are free. *)
Fixpoint guard_discipline (ptr : loc) (ph : phase) {A : Type} (m : prog A)
    : Prop :=
  match m with
  | Ret _ => ph = After
  | Vis e k =>
      match e in op X return (X → prog A) → Prop with
      | OpSpinLockAcquire p => λ k,
          p = ptr ∧ ph = Before ∧ guard_discipline ptr Inside (k tt)
      | OpSpinLockRelease p => λ k,
          p = ptr ∧ ph = Inside ∧ guard_discipline ptr After (k tt)
      | OpLoadValue p => λ k,
          p = ptr ∧ ph = Inside ∧ ∀ v, guard_discipline ptr Inside (k v)
      | OpStoreValue p _ => λ k,
          p = ptr ∧ ph = Inside ∧ guard_discipline ptr Inside (k tt)
      | OpLoadVar _ => λ k, ∀ v, guard_discipline ptr ph (k v)
      | OpStoreVar _ _ => λ k, guard_discipline ptr ph (k tt)
      | OpSpinLockInit _ => λ _, False
      | OpLoadPostmasterPid => λ _, False
      | OpKill _ _ => λ _, False
      end k
  end.

(** ** Interleaving semantics: several execution contexts, one shared memory *)

(** A call a context makes on the shared variable, and what the call
    hands back: for a compare-and-exchange the return value and the final
    contents of [*expected], for a fetch-and-add the return value. *)
Inductive call :=
| CompareExchange (e newval : Z)
| FetchAdd (add_ : Z).

Inductive result :=
| CompareExchangeResult (ret : bool) (e' : Z)
| FetchAddResult (oldval : Z).

#[global] Instance call_eq_dec : EqDecision call.
Proof. solve_decision. Defined.
#[global] Instance result_eq_dec : EqDecision result.
Proof. solve_decision. Defined.

(** The caller's side of a call: [expected] is a private object at [q],
    set before the call and read back after it. *)
Definition call_prog (ptr q : loc) (c : call) : prog result :=
  match c with
  | CompareExchange e newval =>
      store_var q e;;
      ret ← pg_atomic_compare_exchange_u64_impl ptr q newval;
      e' ← load_var q;
      mret (CompareExchangeResult ret e')
  | FetchAdd add_ =>
      oldval ← pg_atomic_fetch_add_u64_impl ptr add_;
      mret (FetchAddResult oldval)
  end.

(** An execution context: its private memory, the address of its
    [expected] object, the calls it still has to make and the call it is
    in, with what remains of it. *)
Record context := Build_context {
  ctx_priv : private;
  ctx_expected : loc;
  ctx_todo : list call;
  ctx_cur : option (call * prog result)
}.

(** What an observer sees of the calls: invocations and returns. *)
Inductive event :=
| Invoke (i : nat) (c : call)
| Return (i : nat) (c : call) (r : result).

#[global] Instance event_eq_dec : EqDecision event.
Proof. solve_decision. Defined.

Record config := Build_config {
  cfg_shm : shared;
  cfg_ctxs : list context;
  cfg_hist : list event
}.

(** One step of context [i]: it invokes its next call, performs the next
    primitive step of the call it is in, or returns from it.  A context
    that finds the guard held spins: the step changes nothing.  A context
    with nothing left to do idles.  A step through an invalid address has
    no successor. *)
Definition context_step (kernel : Z → Z → Z) (ptr : loc) (i : nat)
    (cf : config) : option config :=
  match cfg_ctxs cf !! i with
  | None => Some cf
  | Some t =>
      match ctx_cur t with
      | None =>
          match ctx_todo t with
          | [] => Some cf
          | c :: todo =>
              Some {| cfg_shm := cfg_shm cf;
                      cfg_ctxs :=
                        <[i := {| ctx_priv := ctx_priv t;
                                  ctx_expected := ctx_expected t;
                                  ctx_todo := todo;
                                  ctx_cur := Some (c, call_prog ptr (ctx_expected t) c) |}]>
                          (cfg_ctxs cf);
                      cfg_hist := cfg_hist cf ++ [Invoke i c] |}
          end
      | Some (c, Ret r) =>
          Some {| cfg_shm := cfg_shm cf;
                  cfg_ctxs :=
                    <[i := {| ctx_priv := ctx_priv t;
                              ctx_expected := ctx_expected t;
                              ctx_todo := ctx_todo t;
                              ctx_cur := None |}]> (cfg_ctxs cf);
                  cfg_hist := cfg_hist cf ++ [Return i c r] |}
      | Some (c, Vis e k) =>
          match exec_op kernel e {| shm := cfg_shm cf; priv := ctx_priv t |} with
          | Stepped x s' =>
              Some {| cfg_shm := shm s';
                      cfg_ctxs :=
                        <[i := {| ctx_priv := priv s';
                                  ctx_expected := ctx_expected t;
                                  ctx_todo := ctx_todo t;
                                  ctx_cur := Some (c, k x) |}]> (cfg_ctxs cf);
                      cfg_hist := cfg_hist cf |}
          | Blocked => Some cf
          | Fault => None
          end
      end
  end.

(** A schedule names the context that takes each step. *)
Fixpoint run_schedule (kernel : Z → Z → Z) (ptr : loc) (sched : list nat)
    (cf : config) : option config :=
  match sched with
  | [] => Some cf
  | i :: sched' =>
      match context_step kernel ptr i cf with
      | Some cf' => run_schedule kernel ptr sched' cf'
      | None => None
      end
  end.

(** A context that has not started: it is in no call and its [expected]
    object exists. *)
Definition context_ready (t : context) : Prop :=
  ctx_cur t = None ∧ is_Some (vars (ctx_priv t) !! ctx_expected t).

(** A context that has made all its calls. *)
Definition context_finished (t : context) : Prop :=
  ctx_cur t = None ∧ ctx_todo t = [].

Definition initial_config (m : shared) (ctxs : list context) : config :=
  {| cfg_shm := m; cfg_ctxs := ctxs; cfg_hist := [] |}.

(** ** Serial executions *)

(** The effect of one call executed alone and at once on a variable that
    holds [v], in the words of the specification: the result handed back
    and the value left behind. *)
Definition serial_call (c : call) (v : Z) : result * Z :=
  match c with
  | CompareExchange e newval =>
      if bool_decide (v = e) then (CompareExchangeResult true e, newval)
      else (CompareExchangeResult false v, v)
  | FetchAdd add_ => (FetchAddResult v, (v + add_) mod 2 ^ 64)
  end.

(** A serial execution is a sequence of calls with the context that makes
    each and the result it gets.  It is valid from [v] when every result
    is the one the call yields on the value its predecessors left; the
    value after the last call is returned. *)
Fixpoint serial_run (v : Z) (l : list (nat * call * result)) : option Z :=
  match l with
  | [] => Some v
  | (_, c, r) :: l' =>
      if decide (r = (serial_call c v).1) then serial_run (serial_call c v).2 l'
      else None
  end.

(** The calls of context [i] in a serial execution, in order. *)
Definition calls_of (i : nat) (l : list (nat * call * result))
    : list (call * result) :=
  omap (λ x, if decide (x.1.1 = i) then Some (x.1.2, x.2) else None) l.

(** The calls context [i] returned from in a history, in order. *)
Definition returns_of (i : nat) (h : list event) : list (call * result) :=
  omap (λ ev, match ev with
              | Return j c r => if decide (j = i) then Some (c, r) else None
              | Invoke _ _ => None
              end) h.

(** A history with, for every call that took effect, the point at which
    it did. *)
Inductive mark :=
| MInvoke (i : nat) (c : call)
| MLinearize (i : nat) (c : call) (r : result)
| MReturn (i : nat) (c : call) (r : result).

Definition observed (T : list mark) : list event :=
  omap (λ m, match m with
             | MInvoke i c => Some (Invoke i c)
             | MLinearize _ _ _ => None
             | MReturn i c r => Some (Return i c r)
             end) T.

Definition linearized (T : list mark) : list (nat * call * result) :=
  omap (λ m, match m with
             | MLinearize i c r => Some (i, c, r)
             | _ => None
             end) T.

(** Where context [i] stands in a marked history: in no call, in a call
    that has not taken effect, in a call that has. *)
Inductive bracket :=
| BIdle
| BInvoked (c : call)
| BLinearized (c : call) (r : result).

Definition bracket_step (i : nat) (b : option bracket) (m : mark)
    : option bracket :=
  match m with
  | MInvoke j c =>
      if decide (j = i) then
        match b with Some BIdle => Some (BInvoked c) | _ => None end
      else b
  | MLinearize j c r =>
      if decide (j = i) then
        match b with
        | Some (BInvoked c') => if decide (c' = c) then Some (BLinearized c r) else None
        | _ => None
        end
      else b
  | MReturn j c r =>
      if decide (j = i) then
        match b with
        | Some (BLinearized c' r') =>
            if decide (c' = c ∧ r' = r) then Some BIdle else None
        | _ => None
        end
      else b
  end.

(** [bracket_of i T] is defined when, for context [i], every call of [T]
    is invoked, then takes effect, then returns, with one call and one
    result throughout. *)
Definition bracket_of (i : nat) (T : list mark) : option bracket :=
  foldl (bracket_step i) (Some BIdle) T.

(** ** The invariant of the interleaving semantics *)

Section Invariant.

Variable kernel : Z → Z → Z.
Variable ptr : loc.

(** Run alone from shared memory [sh], the program completes with result
    [r] and leaves the variable unlocked with value [v']. *)
Definition runs_to (m : prog result) (sh : shared) (pv : private)
    (r : result) (v' : Z) : Prop :=
  ∃ s' tr c',
    run kernel m {| shm := sh; priv := pv |} = Done r s' tr ∧
    shm s' !! ptr = Some c' ∧ sema c' = Unlocked ∧ value c' = v'.

(** What remains of call [cl] before it acquires the guard: whatever the
    variable holds when it gets the guard, it will do to it what the call
    does when executed alone. *)
Definition before_guard (cl : call) (m : prog result) (pv : private) : Prop :=
  guard_discipline ptr Before m ∧
  ∀ sh c, sh !! ptr = Some c → sema c = Unlocked →
          runs_to m sh pv (serial_call cl (value c)).1 (serial_call cl (value c)).2.

(** What remains of call [cl] while it holds the guard, the variable
    having held [a] when it acquired it. *)
Definition inside_guard (cl : call) (m : prog result) (pv : private)
    (sh : shared) (a : Z) : Prop :=
  guard_discipline ptr Inside m ∧
  runs_to m sh pv (serial_call cl a).1 (serial_call cl a).2.

(** What remains of a call after it released the guard: it hands back
    [r] whatever the shared memory holds. *)
Definition after_guard (m : prog result) (pv : private) (r : result) : Prop :=
  guard_discipline ptr After m ∧
  ∀ sh, ∃ s' tr, run kernel m {| shm := sh; priv := pv |} = Done r s' tr.

(** The state of one context, against its bracket [b] in the marked
    history, the calls [made] of it that took effect, the value [a] the
    serial execution has reached, the context [holder] that holds the
    guard, and the calls [todo0] it had to make at the start. *)
Definition context_inv (b : option bracket) (made : list call) (a : Z)
    (holder : option nat) (sh : shared) (i : nat) (t : context)
    (todo0 : list call) : Prop :=
  is_Some (vars (ctx_priv t) !! ctx_expected t) ∧
  match ctx_cur t with
  | None =>
      holder ≠ Some i ∧ b = Some BIdle ∧ made ++ ctx_todo t = todo0
  | Some (cl, m) =>
      if decide (holder = Some i) then
        b = Some (BInvoked cl) ∧ made ++ cl :: ctx_todo t = todo0 ∧
        inside_guard cl m (ctx_priv t) sh a
      else
        (b = Some (BInvoked cl) ∧ made ++ cl :: ctx_todo t = todo0 ∧
         before_guard cl m (ctx_priv t)) ∨
        (∃ r, b = Some (BLinearized cl r) ∧ made ++ ctx_todo t = todo0 ∧
              after_guard m (ctx_priv t) r)
  end.

(** The invariant: a marked history [T] whose marks of effect, in order,
    are a valid serial execution from [v0] reaching the value the variable
    holds whenever no context holds the guard. *)
Definition config_inv (v0 : Z) (ctxs0 : list context) (cf : config) : Prop :=
  ∃ (T : list mark) (a : Z) (holder : option nat) (c : pg_atomic_uint64),
    observed T = cfg_hist cf ∧
    serial_run v0 (linearized T) = Some a ∧
    cfg_shm cf !! ptr = Some c ∧
    match holder with
    | None => sema c = Unlocked ∧ value c = a
    | Some h => sema c = Locked ∧ is_Some (cfg_ctxs cf !! h)
    end ∧
    length (cfg_ctxs cf) = length ctxs0 ∧
    ∀ i t, cfg_ctxs cf !! i = Some t →
           ∃ t0, ctxs0 !! i = Some t0 ∧
                 context_inv (bracket_of i T) (calls_of i (linearized T)).*1
                             a holder (cfg_shm cf) i t (ctx_todo t0).

(** The invariant with its marked history, serial value, holder of the
    guard and contents of the variable made explicit. *)
Definition config_inv_at (v0 : Z) (ctxs0 : list context) (cf : config)
    (T : list mark) (a : Z) (holder : option nat) (c : pg_atomic_uint64)
    : Prop :=
  observed T = cfg_hist cf ∧
  serial_run v0 (linearized T) = Some a ∧
  cfg_shm cf !! ptr = Some c ∧
  match holder with
  | None => sema c = Unlocked ∧ value c = a
  | Some h => sema c = Locked ∧ is_Some (cfg_ctxs cf !! h)
  end ∧
  length (cfg_ctxs cf) = length ctxs0 ∧
  ∀ i t, cfg_ctxs cf !! i = Some t →
         ∃ t0, ctxs0 !! i = Some t0 ∧
               context_inv (bracket_of i T) (calls_of i (linearized T)).*1
                           a holder (cfg_shm cf) i t (ctx_todo t0).

End Invariant.

(** The context a mark belongs to. *)
Definition mark_ctx (m : mark) : nat :=
  match m with
  | MInvoke i _ | MLinearize i _ _ | MReturn i _ _ => i
  end.

(** What a step of context [i] does to the marked history: nothing, or
    one more mark, of context [i], which exists. *)
Definition mark_step (i : nat) (cf : config) (T T' : list mark) : Prop :=
  T' = T ∨
  ∃ m, T' = T ++ [m] ∧ mark_ctx m = i ∧ is_Some (cfg_ctxs cf !! i).

(** All marks belong to the first [n] contexts. *)
Definition marks_below (n : nat) (T : list mark) : Prop :=
  Forall (λ m, (mark_ctx m < n)%nat) T.

(** ** Workloads of fetch-and-adds *)

(** The delta a call adds to the variable, for a fetch-and-add. *)
Definition call_delta (c : call) : Z :=
  match c with
  | FetchAdd add_ => add_
  | CompareExchange _ _ => 0
  end.

Definition is_fetch_add (c : call) : Prop :=
  match c with
  | FetchAdd _ => True
  | CompareExchange _ _ => False
  end.

Definition Zsum (l : list Z) : Z := foldr Z.add 0 l.

(** The sum of the deltas of all the calls the contexts have to make. *)
Definition total_delta (ctxs : list context) : Z :=
  Zsum ((λ t, Zsum (call_delta <$> ctx_todo t)) <$> ctxs).

(** ** Critical sections *)

(** A context is in its critical section when what remains of its call is
    in phase [Inside]: it has acquired the guard and not released it. *)
Definition in_critical_section (ptr : loc) (t : context) : Prop :=
  ∃ cl m, ctx_cur t = Some (cl, m) ∧ guard_discipline ptr Inside m.

(** ** A guard that nobody will release *)

Definition is_invoke (ev : event) : Prop :=
  match ev with
  | Invoke _ _ => True
  | Return _ _ _ => False
  end.

(** The invariant of executions that start with the guard locked and no
    context in a call: the shared memory stays, no call returns, and every
    context is where it started or in a call that has not acquired the
    guard. *)
Definition leaked_guard_inv (ptr : loc) (shm0 : shared)
    (ctxs0 : list context) (cf : config) : Prop :=
  cfg_shm cf = shm0 ∧
  Forall is_invoke (cfg_hist cf) ∧
  length (cfg_ctxs cf) = length ctxs0 ∧
  ∀ i t, cfg_ctxs cf !! i = Some t →
         match ctx_cur t with
         | None => ∃ t0, ctxs0 !! i = Some t0 ∧ ctx_todo t = ctx_todo t0
         | Some (cl, m) => guard_discipline ptr Before m
         end.

(** ** Work left *)

(** What a context still has to do: two units for every call it has not
    invoked, one for the call it is in. *)
Definition context_work (t : context) : nat :=
  2 * length (ctx_todo t) + match ctx_cur t with Some _ => 1 | None => 0 end.

Definition config_work (cf : config) : nat :=
  sum_list_with context_work (cfg_ctxs cf).

(** ** Example inputs *)

(** Example inputs: an atomic variable at address 1 with the guard
    unlocked, a [uint64] object at address 7, in a backend whose
    postmaster is another process. *)
Definition example_state (v e : Z) : state :=
  {| shm := {[ 1%positive := {| sema := Unlocked; value := v |} ]};
     priv := {| vars := {[ 7%positive := e ]};
                PostmasterPid := 4000; MyProcPid := 4242 |} |}.

Definition example_kernel : Z → Z → Z := λ _ _, 0.

(** An atomic variable whose guard another context holds, with a value
    equal to the contents of the private object at address 7. *)
Definition example_held_state : state :=
  {| shm := {[ 1%positive := {| sema := Locked; value := 5 |} ]};
     priv := {| vars := {[ 7%positive := 5 ]};
                PostmasterPid := 4000; MyProcPid := 4242 |} |}.

(** Storage for an atomic variable that was never initialised: it holds
    whatever was there, here a guard that reads as locked. *)
Definition example_raw_state : state :=
  {| shm := {[ 1%positive := {| sema := Locked; value := 77 |} ]};
     priv := {| vars := {[ 7%positive := 0 ]};
                PostmasterPid := 4000; MyProcPid := 4242 |} |}.

(** Two contexts, each with two calls on the variable at address 1, and a
    schedule that interleaves their steps, with spinning on the guard. *)
Definition example_context (todo : list call) : context :=
  {| ctx_priv := {| vars := {[ 7%positive := 0 ]};
                    PostmasterPid := 4000; MyProcPid := 4242 |};
     ctx_expected := 7;
     ctx_todo := todo;
     ctx_cur := None |}.

Definition example_contexts : list context :=
  [example_context [FetchAdd 1; CompareExchange 3 10];
   example_context [FetchAdd 2; CompareExchange 0 5]].

Definition example_shared : shared :=
  {[ 1%positive := {| sema := Unlocked; value := 0 |} ]}.

Definition example_schedule : list nat :=
  [0; 0; 1; 1; 0; 1; 0; 1]%nat ++ concat (replicate 30 [0; 1; 1; 0]%nat).

(** Two atomic variables, at addresses 1 and 2, and two private objects. *)
Definition example_two_variables : state :=
  {| shm := {[ 1%positive := {| sema := Unlocked; value := 5 |};
               2%positive := {| sema := Unlocked; value := 8 |} ]};
     priv := {| vars := {[ 7%positive := 6; 9%positive := 3 ]};
                PostmasterPid := 4000; MyProcPid := 4242 |} |}.

(** Three contexts that count: each adds 1 twice. *)
Definition example_counters : list context :=
  replicate 3 (example_context (replicate 2 (FetchAdd 1))).

Definition example_round_robin : list nat :=
  concat (replicate 40 [0; 1; 2]%nat).

(** A variable whose guard was left locked by a holder that is gone. *)
Definition example_leaked : shared :=
  {[ 1%positive := {| sema := Locked; value := 5 |} ]}.

(** * Sequential behaviour *)

Section Sequential.

Variable kernel : Z → Z → Z.

Lemma run_bind {A B : Type} (m : prog A) (f : A → prog B) (s : state) :
  run kernel (m ≫= f) s =
  match run kernel m s with
  | Done a s' tr =>
      match run kernel (f a) s' with
      | Done b s'' tr' => Done b s'' (tr ++ tr')
      | Stall => Stall
      | Crash => Crash
      end
  | Stall => Stall
  | Crash => Crash
  end.
Proof.
  revert s. induction m as [a | X e k IH]; intros s.
  - cbn. by destruct (run kernel (f a) s).
  - change (Vis e k ≫= f) with (Vis e (λ x, k x ≫= f)). cbn.
    destruct (exec_op kernel e s) as [x s' | |]; [| done | done].
    rewrite IH. destruct (run kernel (k x) s') as [a s'' tr | |]; [| done | done].
    by destruct (run kernel (f a) s'').
Qed.

(** Symbolic execution of [run] over reads of just-written addresses. *)
Ltac run_steps :=
  repeat (progress (rewrite ?lookup_insert_eq; cbn)).

(** Closed forms of the three atomic operations on a variable that is
    valid storage. *)
Lemma run_init_u64 s ptr val_ c :
  shm s !! ptr = Some c →
  run kernel (pg_atomic_init_u64_impl ptr val_) s =
  Done tt (set_shm s (<[ptr := {| sema := Unlocked; value := val_ |}]> (shm s)))
       [ASpinLockInit ptr; AStoreValue ptr val_].
Proof.
  intros Hc. destruct s as [m pv]. cbn in *.
  rewrite Hc. run_steps. unfold set_shm. cbn. by rewrite insert_insert_eq.
Qed.

Lemma run_compare_exchange_u64 s ptr expected newval c e :
  shm s !! ptr = Some c → sema c = Unlocked →
  vars (priv s) !! expected = Some e →
  run kernel (pg_atomic_compare_exchange_u64_impl ptr expected newval) s =
  Done (bool_decide (value c = e))
       (set_vars
          (set_shm s (<[ptr := {| sema := Unlocked;
                                  value := if bool_decide (value c = e)
                                           then newval else value c |}]> (shm s)))
          (<[expected := value c]> (vars (priv s))))
       ([ASpinLockAcquire ptr; ALoadValue ptr (value c); ALoadVar expected e;
         ALoadValue ptr (value c); AStoreVar expected (value c)]
        ++ (if bool_decide (value c = e) then [AStoreValue ptr newval] else [])
        ++ [ASpinLockRelease ptr]).
Proof.
  intros Hc Hl He. destruct s as [m [vs pm me]]. cbn in *.
  rewrite Hc, Hl. run_steps. rewrite He. run_steps. rewrite He. cbn.
  case_bool_decide; run_steps; unfold set_vars, set_shm; cbn;
    by rewrite ?insert_insert_eq.
Qed.

Lemma run_fetch_add_u64 s ptr add_ c :
  shm s !! ptr = Some c → sema c = Unlocked →
  run kernel (pg_atomic_fetch_add_u64_impl ptr add_) s =
  Done (value c)
       (set_shm s (<[ptr := {| sema := Unlocked;
                               value := uint64_add (value c) (uint64_of_int64 add_) |}]>
                     (shm s)))
       [ASpinLockAcquire ptr; ALoadValue ptr (value c); ALoadValue ptr (value c);
        AStoreValue ptr (uint64_add (value c) (uint64_of_int64 add_));
        ASpinLockRelease ptr].
Proof.
  intros Hc Hl. destruct s as [m pv]. cbn in *.
  rewrite Hc, Hl. run_steps. unfold set_shm. cbn.
  by rewrite !insert_insert_eq.
Qed.

(** A compare-and-exchange or fetch-and-add that returns was entered on
    valid storage with the guard unlocked. *)
Lemma run_compare_exchange_u64_inv s ptr expected newval ret s' tr :
  run kernel (pg_atomic_compare_exchange_u64_impl ptr expected newval) s =
    Done ret s' tr →
  ∃ c e, shm s !! ptr = Some c ∧ sema c = Unlocked ∧
         vars (priv s) !! expected = Some e.
Proof.
  intros Hrun. destruct s as [m [vs pm me]]. cbn in *.
  destruct (m !! ptr) as [c|] eqn:Hc; [| done].
  destruct (sema c) eqn:Hl; [| done]. cbn in Hrun.
  rewrite lookup_insert_eq in Hrun. cbn in Hrun.
  destruct (vs !! expected) as [e|] eqn:He; [| done].
  by exists c, e.
Qed.

Lemma run_fetch_add_u64_inv s ptr add_ ret s' tr :
  run kernel (pg_atomic_fetch_add_u64_impl ptr add_) s = Done ret s' tr →
  ∃ c, shm s !! ptr = Some c ∧ sema c = Unlocked.
Proof.
  intros Hrun. destruct s as [m pv]. cbn in *.
  destruct (m !! ptr) as [c|] eqn:Hc; [| done].
  destruct (sema c) eqn:Hl; [| done]. by exists c.
Qed.

(** The conversion of a signed delta: non-negative deltas are kept,
    negative ones are taken up by 2^64. *)
Lemma uint64_of_int64_spec (d : Z) :
  is_int64 d →
  is_uint64 (uint64_of_int64 d) ∧
  (0 ≤ d → uint64_of_int64 d = d) ∧
  (d < 0 → uint64_of_int64 d = d + 2 ^ 64).
Proof.
  unfold is_int64, is_uint64, uint64_of_int64, UINT64_MODULUS. intros Hd.
  split; [by apply Z.mod_pos_bound |]. split; intros.
  - apply Z.mod_small. lia.
  - symmetry. apply (Z.mod_unique _ _ (-1)); lia.
Qed.

Lemma uint64_add_of_int64 (old d : Z) :
  uint64_add old (uint64_of_int64 d) = (old + d) mod 2 ^ 64.
Proof.
  unfold uint64_add, uint64_of_int64, UINT64_MODULUS.
  by rewrite Z.add_mod_idemp_r.
Qed.

End Sequential.

(** * The atomic variable, one execution context *)

Section AtomicCell.

Variable kernel : Z → Z → Z.

(** C1: in every state, whatever the guard, a compare-and-exchange that
    returns has found an atomic variable and an [*expected]; it returns
    true, leaving [newval] in the variable, exactly when the value it found
    equals [*expected], and it returns false exactly when the two differ:
    no failure is spurious.  On a variable whose guard is free the call
    returns, with the outcome of the comparison; on a variable whose guard
    is held a context running alone does not return false, it waits. *)
Theorem compare_exchange_strong s ptr expected newval :
  (∀ ret s' tr,
     run kernel (pg_atomic_compare_exchange_u64_impl ptr expected newval) s =
       Done ret s' tr →
     ∃ c e c',
       shm s !! ptr = Some c ∧
       vars (priv s) !! expected = Some e ∧
       shm s' !! ptr = Some c' ∧
       ((ret = true ∧ value c' = newval) ↔ value c = e) ∧
       (ret = false ↔ value c ≠ e)) ∧
  (∀ c e,
     shm s !! ptr = Some c → vars (priv s) !! expected = Some e →
     match sema c with
     | Unlocked =>
         ∃ s' tr,
           run kernel (pg_atomic_compare_exchange_u64_impl ptr expected newval) s =
             Done (bool_decide (value c = e)) s' tr
     | Locked =>
         run kernel (pg_atomic_compare_exchange_u64_impl ptr expected newval) s =
           Stall
     end).
Proof.
  split.
  - intros ret s' tr Hrun.
    destruct (run_compare_exchange_u64_inv _ _ _ _ _ _ _ _ Hrun)
      as (c & e & Hc & Hl & He).
    rewrite (run_compare_exchange_u64 kernel _ _ _ newval _ _ Hc Hl He) in Hrun.
    injection Hrun as <- <- <-.
    eexists c, e, _. cbn. rewrite lookup_insert_eq. split_and!; try done; cbn.
    + case_bool_decide as Heq; split; try done; intros; by destruct_and?.
    + case_bool_decide as Heq; split; done.
  - intros c e Hc He. destruct (sema c) eqn:Hl.
    + eexists _, _. by apply run_compare_exchange_u64.
    + destruct s as [m pv]. cbn in *. by rewrite Hc, Hl.
Qed.

(** C2: a compare-and-exchange that returns false has left the variable
    (and the whole shared memory) as it was and has stored the value it
    found there into [*expected]. *)
Theorem compare_exchange_failure s ptr expected newval s' tr :
  run kernel (pg_atomic_compare_exchange_u64_impl ptr expected newval) s =
    Done false s' tr →
  ∃ c, shm s !! ptr = Some c ∧
       shm s' = shm s ∧
       shm s' !! ptr = Some c ∧
       ALoadValue ptr (value c) ∈ tr ∧
       vars (priv s') !! expected = Some (value c).
Proof.
  intros Hrun.
  destruct (run_compare_exchange_u64_inv _ _ _ _ _ _ _ _ Hrun)
    as (c & e & Hc & Hl & He).
  rewrite (run_compare_exchange_u64 kernel _ _ _ newval _ _ Hc Hl He) in Hrun.
  injection Hrun as Hret <- <-. rewrite Hret. cbn.
  assert (<[ptr := {| sema := Unlocked; value := value c |}]> (shm s) = shm s)
    as Hid.
  { apply insert_id. rewrite Hc. destruct c; cbn in *; by subst. }
  exists c. rewrite Hid, lookup_insert_eq. split_and!; try done.
  set_solver.
Qed.

(** C10: the store to [*expected] is not conditional: every
    compare-and-exchange that returns has written the value it found
    there.  When it returns true that value is the one [*expected] held
    before, so the private memory of the caller is what it was. *)
Theorem compare_exchange_success_keeps_expected s ptr expected newval s' tr :
  run kernel (pg_atomic_compare_exchange_u64_impl ptr expected newval) s =
    Done true s' tr →
  ∃ e, vars (priv s) !! expected = Some e ∧
       AStoreVar expected e ∈ tr ∧
       vars (priv s') !! expected = Some e ∧
       priv s' = priv s.
Proof.
  intros Hrun.
  destruct (run_compare_exchange_u64_inv _ _ _ _ _ _ _ _ Hrun)
    as (c & e & Hc & Hl & He).
  rewrite (run_compare_exchange_u64 kernel _ _ _ newval _ _ Hc Hl He) in Hrun.
  injection Hrun as Hret <- <-.
  apply bool_decide_eq_true in Hret. rewrite Hret. cbn.
  exists e. rewrite lookup_insert_eq. split_and!; try done; [set_solver |].
  rewrite insert_id by done. by destruct s as [m [vs pm me]].
Qed.

(** C3: on a variable whose guard is free, fetch-and-add returns the value
    it found and leaves that value plus the delta, reduced modulo 2^64,
    which is a [uint64] again; the call completes whatever the operands
    are, in particular for every [uint64] value and every [int64] delta. *)
Theorem fetch_add_wraps s ptr add_ c :
  shm s !! ptr = Some c → sema c = Unlocked →
  ∃ s' tr,
    run kernel (pg_atomic_fetch_add_u64_impl ptr add_) s =
      Done (value c) s' tr ∧
    shm s' !! ptr =
      Some {| sema := Unlocked; value := (value c + add_) mod 2 ^ 64 |} ∧
    is_uint64 ((value c + add_) mod 2 ^ 64).
Proof.
  intros Hc Hl.
  eexists _, _. split; [by apply run_fetch_add_u64 |].
  cbn. rewrite lookup_insert_eq, uint64_add_of_int64. split; [done |].
  unfold is_uint64, UINT64_MODULUS. by apply Z.mod_pos_bound.
Qed.

(** C4: initialisation of valid storage, whatever it held, leaves the
    guard unlocked and the value [val_]; a fetch-and-add of zero right
    after it returns [val_], and a compare-and-exchange right after it
    whose [*expected] differs from [val_] fails and leaves [val_] in
    [*expected]. *)
Theorem init_then_read s ptr val_ c0 :
  shm s !! ptr = Some c0 →
  (∃ s' tr,
     run kernel (pg_atomic_init_u64_impl ptr val_) s = Done tt s' tr ∧
     shm s' !! ptr = Some {| sema := Unlocked; value := val_ |}) ∧
  (∃ s' tr,
     run kernel (pg_atomic_init_u64_impl ptr val_;;
                 pg_atomic_fetch_add_u64_impl ptr 0) s = Done val_ s' tr) ∧
  (∀ expected e newval,
     vars (priv s) !! expected = Some e → e ≠ val_ →
     ∃ s' tr,
       run kernel (pg_atomic_init_u64_impl ptr val_;;
                   pg_atomic_compare_exchange_u64_impl ptr expected newval) s =
         Done false s' tr ∧
       vars (priv s') !! expected = Some val_).
Proof.
  intros Hc0.
  pose proof (run_init_u64 kernel s ptr val_ c0 Hc0) as Hinit.
  set (s1 := set_shm s (<[ptr := {| sema := Unlocked; value := val_ |}]> (shm s)))
    in Hinit.
  assert (shm s1 !! ptr = Some {| sema := Unlocked; value := val_ |}) as Hc1
    by apply lookup_insert_eq.
  split_and!.
  - by eexists _, _.
  - rewrite run_bind, Hinit.
    rewrite (run_fetch_add_u64 kernel s1 ptr 0 _ Hc1 eq_refl). by eexists _, _.
  - intros expected e newval He Hne.
    rewrite run_bind, Hinit.
    rewrite (run_compare_exchange_u64 kernel s1 ptr expected newval _ e Hc1 eq_refl He).
    cbn. rewrite bool_decide_eq_false_2 by done.
    eexists _, _. split; [done |]. cbn. apply lookup_insert_eq.
Qed.

End AtomicCell.

Lemma compare_exchange_strong_witness :
  (∃ c e c',
     shm (example_state 5 5) !! 1%positive = Some c ∧
     vars (priv (example_state 5 5)) !! 7%positive = Some e ∧
     shm (example_state 9 5) !! 1%positive = Some c' ∧
     ((true = true ∧ value c' = 9) ↔ value c = e) ∧
     (true = false ↔ value c ≠ e)) ∧
  (∃ c e c',
     shm (example_state 5 6) !! 1%positive = Some c ∧
     vars (priv (example_state 5 6)) !! 7%positive = Some e ∧
     shm (example_state 5 5) !! 1%positive = Some c' ∧
     ((false = true ∧ value c' = 9) ↔ value c = e) ∧
     (false = false ↔ value c ≠ e)) ∧
  run example_kernel (pg_atomic_compare_exchange_u64_impl 1 7 9)
      example_held_state = Stall.
Proof.
  split_and!.
  - apply (proj1 (compare_exchange_strong example_kernel (example_state 5 5)
                    1 7 9) true (example_state 9 5)
             [ASpinLockAcquire 1; ALoadValue 1 5; ALoadVar 7 5; ALoadValue 1 5;
              AStoreVar 7 5; AStoreValue 1 9; ASpinLockRelease 1]).
    vm_compute. reflexivity.
  - apply (proj1 (compare_exchange_strong example_kernel (example_state 5 6)
                    1 7 9) false (example_state 5 5)
             [ASpinLockAcquire 1; ALoadValue 1 5; ALoadVar 7 6; ALoadValue 1 5;
              AStoreVar 7 5; ASpinLockRelease 1]).
    vm_compute. reflexivity.
  - exact (proj2 (compare_exchange_strong example_kernel example_held_state
                    1 7 9) {| sema := Locked; value := 5 |} 5 eq_refl eq_refl).
Defined.

Lemma compare_exchange_failure_witness :
  run example_kernel (pg_atomic_compare_exchange_u64_impl 1 7 9)
      (example_state 5 6)
  = Done false (example_state 5 5)
         [ASpinLockAcquire 1; ALoadValue 1 5; ALoadVar 7 6; ALoadValue 1 5;
          AStoreVar 7 5; ASpinLockRelease 1] ∧
  ∃ c, shm (example_state 5 6) !! 1%positive = Some c ∧
       shm (example_state 5 5) = shm (example_state 5 6) ∧
       shm (example_state 5 5) !! 1%positive = Some c ∧
       ALoadValue 1 (value c) ∈
         [ASpinLockAcquire 1; ALoadValue 1 5; ALoadVar 7 6; ALoadValue 1 5;
          AStoreVar 7 5; ASpinLockRelease 1] ∧
       vars (priv (example_state 5 5)) !! 7%positive = Some (value c).
Proof.
  split; [vm_compute; reflexivity |].
  apply (compare_exchange_failure example_kernel (example_state 5 6) 1 7 9).
  vm_compute; reflexivity.
Defined.

Lemma compare_exchange_success_keeps_expected_witness :
  run example_kernel (pg_atomic_compare_exchange_u64_impl 1 7 9)
      (example_state 5 5)
  = Done true (example_state 9 5)
         [ASpinLockAcquire 1; ALoadValue 1 5; ALoadVar 7 5; ALoadValue 1 5;
          AStoreVar 7 5; AStoreValue 1 9; ASpinLockRelease 1] ∧
  ∃ e, vars (priv (example_state 5 5)) !! 7%positive = Some e ∧
       AStoreVar 7 e ∈
         [ASpinLockAcquire 1; ALoadValue 1 5; ALoadVar 7 5; ALoadValue 1 5;
          AStoreVar 7 5; AStoreValue 1 9; ASpinLockRelease 1] ∧
       vars (priv (example_state 9 5)) !! 7%positive = Some e ∧
       priv (example_state 9 5) = priv (example_state 5 5).
Proof.
  split; [vm_compute; reflexivity |].
  apply (compare_exchange_success_keeps_expected
           example_kernel (example_state 5 5) 1 7 9).
  vm_compute; reflexivity.
Defined.

Lemma fetch_add_wraps_witness :
  ∃ s' tr,
    run example_kernel (pg_atomic_fetch_add_u64_impl 1 1)
        (example_state (2 ^ 64 - 1) 0) = Done (2 ^ 64 - 1) s' tr ∧
    shm s' !! 1%positive = Some {| sema := Unlocked; value := 0 |} ∧
    is_uint64 0.
Proof.
  apply (fetch_add_wraps example_kernel (example_state (2 ^ 64 - 1) 0) 1 1
           {| sema := Unlocked; value := 2 ^ 64 - 1 |}); reflexivity.
Defined.

Lemma init_then_read_witness :
  (∃ s' tr,
     run example_kernel (pg_atomic_init_u64_impl 1 42) example_raw_state
       = Done tt s' tr ∧
     shm s' !! 1%positive = Some {| sema := Unlocked; value := 42 |}) ∧
  (∃ s' tr,
     run example_kernel (pg_atomic_init_u64_impl 1 42;;
                         pg_atomic_fetch_add_u64_impl 1 0) example_raw_state
       = Done 42 s' tr) ∧
  (∃ s' tr,
     run example_kernel (pg_atomic_init_u64_impl 1 42;;
                         pg_atomic_compare_exchange_u64_impl 1 7 9)
         example_raw_state
       = Done false s' tr ∧
     vars (priv s') !! 7%positive = Some 42).
Proof.
  destruct (init_then_read example_kernel example_raw_state 1 42
              {| sema := Locked; value := 77 |} eq_refl) as (H1 & H2 & H3).
  split_and!; [exact H1 | exact H2 |].
  apply (H3 7%positive 0 9); [reflexivity | discriminate].
Defined.

(** * The barriers *)

(** C5, as stated, fails: in a backend, whose postmaster is another
    process, the system call of the barrier is not aimed at the caller. *)
Lemma spinlock_barrier_not_aimed_at_self :
  ¬ barrier_signals_self example_kernel (example_state 0 0).
Proof.
  intros (s' & tr & a & Hrun & Hsys & Htarget).
  injection Hrun as <- <-. injection Hsys as <-. discriminate Htarget.
Qed.

(** C5, amended: the barrier takes no argument and yields no value; it
    reads [PostmasterPid] and makes exactly one system call, kill with
    signal 0 aimed at that process id; whatever the kernel answers, the
    result and the state after the call are the same. *)
Theorem spinlock_barrier_signals_postmaster (kernel : Z → Z → Z) (s : state) :
  let pid := PostmasterPid (priv s) in
  run kernel pg_spinlock_barrier s =
    Done tt s [ALoadPostmasterPid pid; AKill pid 0 (kernel pid 0)] ∧
  filter is_syscall [ALoadPostmasterPid pid; AKill pid 0 (kernel pid 0)] =
    [AKill pid 0 (kernel pid 0)] ∧
  syscall_target (AKill pid 0 (kernel pid 0)) = Some (PostmasterPid (priv s)).
Proof. by destruct s as [m pv]. Qed.

(** C6: neither barrier changes anything of the state of the caller or of
    the shared memory: every atomic variable, guard and value, and every
    private object is after the call what it was before, so a read of a
    variable before the barriers and one after them yield the same. *)
Theorem barriers_change_nothing (kernel : Z → Z → Z) (s : state) :
  (∃ tr, run kernel pg_spinlock_barrier s = Done tt s tr) ∧
  run kernel pg_extern_compiler_barrier s = Done tt s [] ∧
  (∀ ptr c, shm s !! ptr = Some c →
     ∃ tr, run kernel (a ← load_value ptr;
                       pg_spinlock_barrier;;
                       pg_extern_compiler_barrier;;
                       b ← load_value ptr;
                       mret (a, b)) s = Done (value c, value c) s tr).
Proof.
  destruct s as [m pv]. split_and!.
  - by eexists.
  - done.
  - intros ptr c Hc. cbn in *. rewrite Hc. cbn. rewrite Hc. by eexists.
Qed.

Lemma barriers_change_nothing_witness :
  ∃ tr, run example_kernel (a ← load_value 1;
                            pg_spinlock_barrier;;
                            pg_extern_compiler_barrier;;
                            b ← load_value 1;
                            mret (a, b)) (example_state 5 0)
        = Done (5, 5) (example_state 5 0) tr.
Proof.
  apply (proj2 (proj2 (barriers_change_nothing example_kernel (example_state 5 0)))
           1%positive {| sema := Unlocked; value := 5 |}).
  reflexivity.
Defined.

(** * Guard discipline of the atomic operations *)

Lemma compare_exchange_discipline ptr expected newval :
  guard_discipline ptr Before
    (pg_atomic_compare_exchange_u64_impl ptr expected newval).
Proof.
  cbn. split_and!; try done. intros v e. split_and!; try done.
  intros v'. case_bool_decide; cbn; by split_and!.
Qed.

Lemma fetch_add_discipline ptr add_ :
  guard_discipline ptr Before (pg_atomic_fetch_add_u64_impl ptr add_).
Proof. cbn. by split_and!. Qed.

(** C7: compare-and-exchange and fetch-and-add follow the guard
    discipline on every path: one acquisition, accesses to the value only
    under the guard, one release, and only then the return.  Run on a
    variable whose guard is unlocked, each call acquires once, releases
    once and returns with the guard unlocked. *)
Theorem guard_unlocked_between_calls (kernel : Z → Z → Z) s ptr c :
  shm s !! ptr = Some c → sema c = Unlocked →
  (∀ expected newval,
     guard_discipline ptr Before
       (pg_atomic_compare_exchange_u64_impl ptr expected newval)) ∧
  (∀ add_, guard_discipline ptr Before (pg_atomic_fetch_add_u64_impl ptr add_)) ∧
  (∀ expected newval e, vars (priv s) !! expected = Some e →
     ∃ ret s' tr c',
       run kernel (pg_atomic_compare_exchange_u64_impl ptr expected newval) s =
         Done ret s' tr ∧
       filter is_lock_action tr = [ASpinLockAcquire ptr; ASpinLockRelease ptr] ∧
       shm s' !! ptr = Some c' ∧ sema c' = Unlocked) ∧
  (∀ add_,
     ∃ ret s' tr c',
       run kernel (pg_atomic_fetch_add_u64_impl ptr add_) s = Done ret s' tr ∧
       filter is_lock_action tr = [ASpinLockAcquire ptr; ASpinLockRelease ptr] ∧
       shm s' !! ptr = Some c' ∧ sema c' = Unlocked).
Proof.
  intros Hc Hl. split_and!.
  - intros. apply compare_exchange_discipline.
  - intros. apply fetch_add_discipline.
  - intros expected newval e He.
    eexists _, _, _, _. split; [by apply run_compare_exchange_u64 |].
    cbn. rewrite lookup_insert_eq. split_and!; try done.
    by case_bool_decide.
  - intros add_.
    eexists _, _, _, _. split; [by apply run_fetch_add_u64 |].
    cbn. by rewrite lookup_insert_eq.
Qed.

Lemma guard_unlocked_between_calls_witness :
  (∃ ret s' tr c',
     run example_kernel (pg_atomic_compare_exchange_u64_impl 1 7 9)
         (example_state 5 6) = Done ret s' tr ∧
     filter is_lock_action tr = [ASpinLockAcquire 1; ASpinLockRelease 1] ∧
     shm s' !! 1%positive = Some c' ∧ sema c' = Unlocked) ∧
  (∃ ret s' tr c',
     run example_kernel (pg_atomic_fetch_add_u64_impl 1 3)
         (example_state 5 6) = Done ret s' tr ∧
     filter is_lock_action tr = [ASpinLockAcquire 1; ASpinLockRelease 1] ∧
     shm s' !! 1%positive = Some c' ∧ sema c' = Unlocked).
Proof.
  destruct (guard_unlocked_between_calls example_kernel (example_state 5 6) 1
              {| sema := Unlocked; value := 5 |} eq_refl eq_refl)
    as (_ & _ & Hcas & Hfaa).
  split; [apply (Hcas 7%positive 9 6 eq_refl) | apply (Hfaa 3)].
Defined.

(** * The build-time check of the guard storage *)

(** C9: the size of the guard storage is checked when the file is
    compiled: the build fails with the message of the assertion exactly
    when the storage is smaller than [slock_t]; when the build succeeds
    the functions it yields are the same whatever the sizes are, so no
    size is examined at run time, and initialisation of valid storage
    always completes. *)
Theorem guard_size_checked_at_build (P : platform) :
  (compile_atomic_u64_simulation P =
     BuildError "size mismatch of atomic_uint64 vs slock_t"
   ↔ sizeof_sema P < sizeof_slock_t P) ∧
  (compile_atomic_u64_simulation P =
     Built {| init_u64 := pg_atomic_init_u64_impl;
              compare_exchange_u64 := pg_atomic_compare_exchange_u64_impl;
              fetch_add_u64 := pg_atomic_fetch_add_u64_impl |}
   ↔ sizeof_slock_t P ≤ sizeof_sema P) ∧
  (∀ kernel s ptr val_ c, shm s !! ptr = Some c →
     ∃ s' tr, run kernel (pg_atomic_init_u64_impl ptr val_) s = Done tt s' tr).
Proof.
  unfold compile_atomic_u64_simulation, atomics_c_static_assertions,
    StaticAssertDecl. rewrite Z.geb_leb.
  split_and!.
  - destruct (Z.leb_spec (sizeof_slock_t P) (sizeof_sema P)); split;
      (done || lia).
  - destruct (Z.leb_spec (sizeof_slock_t P) (sizeof_sema P)); split;
      (done || lia).
  - intros kernel s ptr val_ c Hc. eexists _, _. by eapply run_init_u64.
Qed.

Lemma guard_size_checked_at_build_witness :
  compile_atomic_u64_simulation {| sizeof_sema := 4; sizeof_slock_t := 8 |} =
    BuildError "size mismatch of atomic_uint64 vs slock_t" ∧
  compile_atomic_u64_simulation {| sizeof_sema := 4; sizeof_slock_t := 4 |} =
    Built {| init_u64 := pg_atomic_init_u64_impl;
             compare_exchange_u64 := pg_atomic_compare_exchange_u64_impl;
             fetch_add_u64 := pg_atomic_fetch_add_u64_impl |}.
Proof.
  split.
  - apply (proj1 (guard_size_checked_at_build
                    {| sizeof_sema := 4; sizeof_slock_t := 8 |})).
    cbn. lia.
  - apply (proj1 (proj2 (guard_size_checked_at_build
                           {| sizeof_sema := 4; sizeof_slock_t := 4 |}))).
    cbn. lia.
Defined.

(** * Several execution contexts: linearizability *)

Lemma run_Vis_Done (kernel : Z → Z → Z) {A X : Type} (e : op X)
    (k : X → prog A) s r s' tr :
  run kernel (Vis e k) s = Done r s' tr →
  ∃ x s1 tr1,
    exec_op kernel e s = Stepped x s1 ∧
    run kernel (k x) s1 = Done r s' tr1 ∧
    tr = action_of e x :: tr1.
Proof.
  cbn. destruct (exec_op kernel e s) as [x s1 | |]; [| done | done].
  destruct (run kernel (k x) s1) as [r1 s1' tr1 | |] eqn:Hk; [| done | done].
  intros [= -> -> <-]. by exists x, s1, tr1.
Qed.

Lemma serial_run_app v l1 l2 :
  serial_run v (l1 ++ l2) = serial_run v l1 ≫= λ v', serial_run v' l2.
Proof.
  revert v. induction l1 as [| [[i c] r] l1 IH]; intros v; [done |].
  cbn. case_decide; [apply IH | done].
Qed.

Lemma observed_snoc T m :
  observed (T ++ [m]) = observed T ++ observed [m].
Proof. unfold observed. by rewrite omap_app. Qed.

Lemma linearized_snoc T m :
  linearized (T ++ [m]) = linearized T ++ linearized [m].
Proof. unfold linearized. by rewrite omap_app. Qed.

Lemma calls_of_app i l1 l2 :
  calls_of i (l1 ++ l2) = calls_of i l1 ++ calls_of i l2.
Proof. unfold calls_of. by rewrite omap_app. Qed.

Lemma returns_of_app i h1 h2 :
  returns_of i (h1 ++ h2) = returns_of i h1 ++ returns_of i h2.
Proof. unfold returns_of. by rewrite omap_app. Qed.

Lemma bracket_of_snoc i T m :
  bracket_of i (T ++ [m]) = bracket_step i (bracket_of i T) m.
Proof. unfold bracket_of. by rewrite foldl_app. Qed.

(** In a marked history the calls a context has returned from, followed
    by the call that has taken effect but not returned yet, are its calls
    in the serial order. *)
Lemma bracket_of_returns i T b :
  bracket_of i T = Some b →
  returns_of i (observed T)
    ++ match b with BLinearized c r => [(c, r)] | _ => [] end
  = calls_of i (linearized T).
Proof.
  revert b. induction T as [| m T IH] using rev_ind; intros b.
  - by intros [= <-].
  - rewrite bracket_of_snoc, observed_snoc, linearized_snoc,
      returns_of_app, calls_of_app.
    destruct (bracket_of i T) as [b0 |] eqn:Hb0.
    + specialize (IH b0 eq_refl).
      destruct m as [j c | j c r | j c r]; cbn; case_decide; subst;
        try (destruct b0 as [| c0 | c0 r0]; try done; []);
        repeat (case_decide; try done; []);
        destruct_and?; subst; intros [= <-];
        rewrite ?app_nil_r in *; by rewrite <- ?IH.
    + destruct m as [j c | j c r | j c r]; cbn; by case_decide.
Qed.

Section LinearizabilityProof.

Variable kernel : Z → Z → Z.
Variable ptr : loc.

(** A program in phase [After] leaves the shared memory alone and does
    not read it. *)
Lemma after_discipline_run (m : prog result) sh pv r s' tr :
  guard_discipline ptr After m →
  run kernel m {| shm := sh; priv := pv |} = Done r s' tr →
  shm s' = sh ∧
  ∀ sh2, ∃ s2 tr2, run kernel m {| shm := sh2; priv := pv |} = Done r s2 tr2.
Proof.
  revert pv tr. induction m as [r0 | X e k IH]; intros pv tr Hd Hrun.
  - injection Hrun as <- <- <-. split; [done |]. intros sh2. by eexists _, _.
  - apply run_Vis_Done in Hrun as (x & s1 & tr1 & Hex & Hk & ->).
    destruct e; cbn in Hd; try (by destruct_and?); cbn in Hex.
    + destruct (vars pv !! q) as [v |] eqn:Hq; [| done].
      injection Hex as <- <-.
      destruct (IH v pv tr1 (Hd v) Hk) as [Hsh Hall]. split; [done |].
      intros sh2. destruct (Hall sh2) as (s2 & tr2 & Hrun2).
      cbn. rewrite Hq, Hrun2. by eexists _, _.
    + destruct (vars pv !! q) as [v0 |] eqn:Hq; [| done].
      destruct x. injection Hex as <-. unfold set_vars in Hk. cbn in Hk.
      destruct (IH tt _ tr1 Hd Hk) as [Hsh Hall]. split; [done |].
      intros sh2. destruct (Hall sh2) as (s2 & tr2 & Hrun2).
      cbn. rewrite Hq. unfold set_vars. cbn. rewrite Hrun2. by eexists _, _.
Qed.

Lemma run_store_var s q v v0 :
  vars (priv s) !! q = Some v0 →
  run kernel (store_var q v) s =
    Done tt (set_vars s (<[q := v]> (vars (priv s)))) [AStoreVar q v].
Proof. intros Hq. cbn. by rewrite Hq. Qed.

Lemma run_load_var s q v :
  vars (priv s) !! q = Some v →
  run kernel (load_var q) s = Done v s [ALoadVar q v].
Proof. intros Hq. cbn. by rewrite Hq. Qed.

(** The caller's side of a call, before it starts, is in phase [Before]
    and does to the variable what the call does when executed alone. *)
Lemma call_prog_before q cl pv :
  is_Some (vars pv !! q) →
  before_guard kernel ptr cl (call_prog ptr q cl) pv.
Proof.
  intros [e0 Hq]. split.
  - destruct cl as [e newval | add_]; cbn.
    + split_and!; try done. intros v e'. split_and!; try done.
      intros v'. case_bool_decide; cbn; by split_and!.
    + by split_and!.
  - intros sh c Hc Hl. unfold runs_to.
    set (s0 := {| shm := sh; priv := pv |}).
    destruct cl as [e newval | add_]; unfold call_prog.
    + set (s1 := set_vars s0 (<[q := e]> (vars (priv s0)))).
      assert (vars (priv s1) !! q = Some e) as Hq1 by apply lookup_insert_eq.
      rewrite run_bind, (run_store_var s0 q e e0 Hq). cbv beta iota.
      fold s1. rewrite run_bind.
      rewrite (run_compare_exchange_u64 kernel s1 ptr q newval c e Hc Hl Hq1).
      cbv beta iota. rewrite run_bind.
      rewrite (run_load_var _ q (value c)) by apply lookup_insert_eq.
      cbn. subst s1 s0.
      case_bool_decide as Heq; [subst e |]; eexists _, _, _;
        (split; [reflexivity |]); cbn; by rewrite lookup_insert_eq.
    + rewrite run_bind, (run_fetch_add_u64 kernel s0 ptr add_ c Hc Hl). cbn.
      eexists _, _, _. split; [reflexivity |]. cbn.
      by rewrite lookup_insert_eq, uint64_add_of_int64.
Qed.

Lemma bracket_of_other j T m :
  mark_ctx m ≠ j → bracket_of j (T ++ [m]) = bracket_of j T.
Proof.
  intros Hne. rewrite bracket_of_snoc.
  destruct m; cbn in *; by rewrite decide_False.
Qed.

Lemma calls_of_other j T m :
  mark_ctx m ≠ j →
  calls_of j (linearized (T ++ [m])) = calls_of j (linearized T).
Proof.
  intros Hne. rewrite linearized_snoc, calls_of_app.
  destruct m; cbn in *; rewrite ?decide_False by done; by rewrite app_nil_r.
Qed.

(** The invariant of a context other than the one that steps. *)
Lemma context_inv_frame b made a a' holder holder' sh sh' j t todo0 :
  (holder' = holder ∧ sh' = sh ∧ a' = a) ∨
    (holder ≠ Some j ∧ holder' ≠ Some j) →
  context_inv kernel ptr b made a holder sh j t todo0 →
  context_inv kernel ptr b made a' holder' sh' j t todo0.
Proof.
  intros [(-> & -> & ->) | [Hh Hh']]; [done |].
  unfold context_inv. intros [Hq Hcur]. split; [done |].
  destruct (ctx_cur t) as [[cl m] |].
  - rewrite decide_False in Hcur by done. by rewrite decide_False by done.
  - by destruct Hcur as (_ & ? & ?).
Qed.

Lemma others_preserved (ctxs0 ctxs : list context) i T T' a a' holder holder'
    sh sh' :
  (∀ j t, ctxs !! j = Some t →
     ∃ t0, ctxs0 !! j = Some t0 ∧
           context_inv kernel ptr (bracket_of j T)
             (calls_of j (linearized T)).*1 a holder sh j t (ctx_todo t0)) →
  T' = T ∨ (∃ m, T' = T ++ [m] ∧ mark_ctx m = i) →
  (holder' = holder ∧ sh' = sh ∧ a' = a) ∨
    ((holder = None ∨ holder = Some i) ∧ (holder' = None ∨ holder' = Some i)) →
  ∀ j t, j ≠ i → ctxs !! j = Some t →
     ∃ t0, ctxs0 !! j = Some t0 ∧
           context_inv kernel ptr (bracket_of j T')
             (calls_of j (linearized T')).*1 a' holder' sh' j t (ctx_todo t0).
Proof.
  intros Hctx HT Hh j t Hne Hj.
  destruct (Hctx j t Hj) as (t0 & Ht0 & Hinv). exists t0. split; [done |].
  assert (bracket_of j T' = bracket_of j T ∧
          calls_of j (linearized T') = calls_of j (linearized T)) as [-> ->].
  { destruct HT as [-> | (m & -> & Hm)]; [done |].
    split; [apply bracket_of_other | apply calls_of_other]; congruence. }
  eapply context_inv_frame; [| done].
  destruct Hh as [? | [Hh Hh']]; [by left | right].
  split; [destruct Hh as [-> | ->] | destruct Hh' as [-> | ->]]; congruence.
Qed.

(** A step of context [i] that neither invokes, nor takes effect, nor
    returns: the marked history and the serial value stay. *)
Lemma config_inv_update_at v0 ctxs0 cf T a holder i sh1 c1 holder' t' :
  observed T = cfg_hist cf →
  serial_run v0 (linearized T) = Some a →
  length (cfg_ctxs cf) = length ctxs0 →
  (∀ j t, cfg_ctxs cf !! j = Some t →
     ∃ t0, ctxs0 !! j = Some t0 ∧
           context_inv kernel ptr (bracket_of j T)
             (calls_of j (linearized T)).*1 a holder (cfg_shm cf) j t
             (ctx_todo t0)) →
  (i < length (cfg_ctxs cf))%nat →
  sh1 !! ptr = Some c1 →
  match holder' with
  | None => sema c1 = Unlocked ∧ value c1 = a
  | Some h => sema c1 = Locked ∧ is_Some (cfg_ctxs cf !! h)
  end →
  (holder' = holder ∧ sh1 = cfg_shm cf) ∨
    ((holder = None ∨ holder = Some i) ∧ (holder' = None ∨ holder' = Some i)) →
  (∃ t0, ctxs0 !! i = Some t0 ∧
         context_inv kernel ptr (bracket_of i T)
           (calls_of i (linearized T)).*1 a holder' sh1 i t' (ctx_todo t0)) →
  config_inv_at kernel ptr v0 ctxs0
    {| cfg_shm := sh1; cfg_ctxs := <[i := t']> (cfg_ctxs cf);
       cfg_hist := cfg_hist cf |} T a holder' c1.
Proof.
  intros Hobs Hser Hlen Hctx Hlt Hc1 Hhold Hframe Hi.
  unfold config_inv_at. cbn. split_and!; try done.
  - destruct holder' as [h |]; [| done]. destruct Hhold as [? Hh].
    split; [done |]. apply lookup_lt_is_Some. rewrite length_insert.
    by apply lookup_lt_is_Some.
  - by rewrite length_insert.
  - intros j tj Hj. destruct (decide (j = i)) as [-> | Hne].
    + rewrite list_lookup_insert_eq in Hj by done. by injection Hj as <-.
    + rewrite list_lookup_insert_ne in Hj by done.
      eapply others_preserved; [exact Hctx | by left | | done | done].
      destruct Hframe as [[-> ->] | ?]; [by left | by right].
Qed.

Lemma config_inv_update v0 ctxs0 cf T a holder i sh1 c1 holder' t' :
  observed T = cfg_hist cf →
  serial_run v0 (linearized T) = Some a →
  length (cfg_ctxs cf) = length ctxs0 →
  (∀ j t, cfg_ctxs cf !! j = Some t →
     ∃ t0, ctxs0 !! j = Some t0 ∧
           context_inv kernel ptr (bracket_of j T)
             (calls_of j (linearized T)).*1 a holder (cfg_shm cf) j t
             (ctx_todo t0)) →
  (i < length (cfg_ctxs cf))%nat →
  sh1 !! ptr = Some c1 →
  match holder' with
  | None => sema c1 = Unlocked ∧ value c1 = a
  | Some h => sema c1 = Locked ∧ is_Some (cfg_ctxs cf !! h)
  end →
  (holder' = holder ∧ sh1 = cfg_shm cf) ∨
    ((holder = None ∨ holder = Some i) ∧ (holder' = None ∨ holder' = Some i)) →
  (∃ t0, ctxs0 !! i = Some t0 ∧
         context_inv kernel ptr (bracket_of i T)
           (calls_of i (linearized T)).*1 a holder' sh1 i t' (ctx_todo t0)) →
  config_inv kernel ptr v0 ctxs0
    {| cfg_shm := sh1; cfg_ctxs := <[i := t']> (cfg_ctxs cf);
       cfg_hist := cfg_hist cf |}.
Proof.
  intros. exists T, a, holder', c1. by eapply config_inv_update_at.
Qed.

(** Every step of every context keeps the invariant, and no step goes
    through an invalid address. *)
Lemma context_step_marks v0 ctxs0 i cf T a holder c :
  config_inv_at kernel ptr v0 ctxs0 cf T a holder c →
  ∃ cf' T' a' holder' c',
    context_step kernel ptr i cf = Some cf' ∧
    mark_step i cf T T' ∧
    config_inv_at kernel ptr v0 ctxs0 cf' T' a' holder' c'.
Proof.
  intros Hinv. pose proof Hinv as Hinv0.
  destruct Hinv as (Hobs & Hser & Hc & Hhold & Hlen & Hctx).
  unfold context_step.
  destruct (cfg_ctxs cf !! i) as [t |] eqn:Hi;
    [| by exists cf, T, a, holder, c; split; [| split; [left |]]].
  assert (i < length (cfg_ctxs cf))%nat as Hlt by by eapply lookup_lt_Some.
  destruct (Hctx i t Hi) as (t0 & Ht0 & Hq & Hcur).
  destruct (ctx_cur t) as [[cl m] |] eqn:Hcur_eq.
  - destruct m as [r | X e k].
    + (* return *)
      case_decide as Hh.
      { destruct Hcur as (_ & _ & Hd & _). discriminate Hd. }
      destruct Hcur as [(_ & _ & Hd & _) | (r0 & Hb & Htodo & Hd & Hrun)];
        [discriminate Hd |].
      destruct (Hrun (cfg_shm cf)) as (s' & tr & [= <- _ _]).
      eexists _, (T ++ [MReturn i cl r]), a, holder, c.
      split; [done |]. split; [right; eexists; split_and!; [done | done | by eexists] |].
      unfold config_inv_at. cbn.
      split_and!.
      * by rewrite observed_snoc, Hobs.
      * by rewrite linearized_snoc, app_nil_r.
      * done.
      * destruct holder as [h |]; [| done]. destruct Hhold as [? Hh'].
        split; [done |]. apply lookup_lt_is_Some. rewrite length_insert.
        by apply lookup_lt_is_Some.
      * by rewrite length_insert.
      * intros j tj Hj. destruct (decide (j = i)) as [-> | Hne].
        -- rewrite list_lookup_insert_eq in Hj by done. injection Hj as <-.
           exists t0. split; [done |]. split; [done |]. cbn.
           rewrite bracket_of_snoc, Hb. cbn. rewrite decide_True by done.
           rewrite decide_True by done.
           by rewrite linearized_snoc, app_nil_r.
        -- rewrite list_lookup_insert_ne in Hj by done.
           eapply others_preserved;
             [exact Hctx | right; by eexists | by left | done | done].
    + (* a primitive step *)
      case_decide as Hh.
      * (* the context holds the guard *)
        subst holder. destruct Hhold as [Hl _].
        destruct Hcur as (Hb & Htodo & Hd & s' & tr & c' & Hrun & Hc' & Hl' & Hv').
        apply run_Vis_Done in Hrun as (x & s1 & tr1 & Hex & Hk & ->).
        rewrite Hex.
        destruct e; cbn in Hd; try (by destruct_and?); cbn in Hex.
        -- (* release: the call takes effect *)
           destruct Hd as (-> & _ & Hd). rewrite Hc in Hex. destruct x.
           injection Hex as <-. unfold set_shm in Hk. cbn in Hk.
           destruct (after_discipline_run _ _ _ _ _ _ Hd Hk) as [Hsh Hall].
           rewrite Hsh, lookup_insert_eq in Hc'. injection Hc' as <-.
           cbn in Hv'.
           eexists _, (T ++ [MLinearize i cl (serial_call cl a).1]),
             (serial_call cl a).2, None, (set_sema Unlocked c).
           split; [done |]. split; [right; eexists; split_and!; [done | done | by eexists] |].
           unfold config_inv_at. cbn.
           split_and!; try done.
           ++ by rewrite observed_snoc, app_nil_r.
           ++ rewrite linearized_snoc, serial_run_app, Hser. cbn.
              by rewrite decide_True.
           ++ apply lookup_insert_eq.
           ++ by rewrite length_insert.
           ++ intros j tj Hj. destruct (decide (j = i)) as [-> | Hne].
              ** rewrite list_lookup_insert_eq in Hj by done.
                 injection Hj as <-.
                 exists t0. split; [done |]. split; [done |]. cbn. right.
                 exists (serial_call cl a).1.
                 rewrite bracket_of_snoc, Hb, linearized_snoc, calls_of_app.
                 cbn. rewrite !decide_True by done.
                 rewrite fmap_app, <- app_assoc. by split_and!.
              ** rewrite list_lookup_insert_ne in Hj by done.
                 eapply others_preserved;
                   [exact Hctx | right; by eexists | right; by split; [right | left]
                   | done | done].
        -- (* load of the value *)
           destruct Hd as (-> & _ & Hd). rewrite Hc in Hex.
           injection Hex as <- <-.
           eexists _, T, a, (Some i), c.
           split; [done |]. split; [by left |].
           eapply (config_inv_update_at _ _ cf T a (Some i) i _ c
                     (Some i));
             try done; [by left |].
           exists t0. split; [done |]. split; [done |]. cbn.
           rewrite decide_True by done. split_and!; try done.
           split; [done | by exists s', tr1, c'].
        -- (* store of the value *)
           destruct Hd as (-> & _ & Hd). rewrite Hc in Hex. destruct x.
           injection Hex as <-.
           eexists _, T, a, (Some i), (set_value v c).
           split; [done |]. split; [by left |].
           eapply (config_inv_update_at _ _ cf T a (Some i) i _ (set_value v c)
                     (Some i)); try done;
             [apply lookup_insert_eq | right; by split; right |].
           exists t0. split; [done |]. split; [done |]. cbn.
           rewrite decide_True by done. split_and!; try done.
           split; [done | by exists s', tr1, c'].
        -- (* load of a private object *)
           destruct (vars (ctx_priv t) !! q) as [w |] eqn:Hw; [| done].
           injection Hex as <- <-.
           eexists _, T, a, (Some i), c.
           split; [done |]. split; [by left |].
           eapply (config_inv_update_at _ _ cf T a (Some i) i _ c
                     (Some i));
             try done; [by left |].
           exists t0. split; [done |]. split; [done |]. cbn.
           rewrite decide_True by done. split_and!; try done.
           split; [done | by exists s', tr1, c'].
        -- (* store to a private object *)
           destruct (vars (ctx_priv t) !! q) as [w |] eqn:Hw; [| done].
           destruct x. injection Hex as <-.
           eexists _, T, a, (Some i), c.
           split; [done |]. split; [by left |].
           eapply (config_inv_update_at _ _ cf T a (Some i) i _ c
                     (Some i));
             try done; [by left |].
           exists t0. split; [done |]. split.
           { cbn. by apply lookup_insert_is_Some'; right. }
           cbn. rewrite decide_True by done. split_and!; try done.
           split; [done | by exists s', tr1, c'].
      * (* the context does not hold the guard *)
        destruct Hcur as [(Hb & Htodo & Hd & Hrun) | (r0 & Hb & Htodo & Hd & Hrun)].
        -- (* it has not acquired it yet *)
           assert (∃ (sh_u : shared) c_u,
                     sh_u !! ptr = Some c_u ∧ sema c_u = Unlocked)
             as (sh_u & c_u & Hc_u & Hl_u).
           { exists (<[ptr := set_sema Unlocked c]> (cfg_shm cf)), (set_sema Unlocked c).
             by rewrite lookup_insert_eq. }
           destruct e; cbn in Hd; try (by destruct_and?).
           ++ (* acquire *)
              destruct Hd as (-> & _ & Hd). cbn. rewrite Hc.
              destruct holder as [h |].
              ** destruct Hhold as [Hl _]. rewrite Hl.
                 by exists cf, T, a, (Some h), c; split; [| split; [left |]].
              ** destruct Hhold as [Hl Hv]. rewrite Hl.
                 cbn.
                 destruct (Hrun _ _ Hc Hl) as (s' & tr & c' & Hrun' & Hc' & Hl' & Hv').
                 apply run_Vis_Done in Hrun' as (x & s1 & tr1 & Hex & Hk & ->).
                 cbn in Hex. rewrite Hc, Hl in Hex. destruct x.
                 injection Hex as <-.
                 eexists _, T, a, (Some i), (set_sema Locked c).
                 split; [done |]. split; [by left |].
                 eapply (config_inv_update_at _ _ cf T a None i _
                           (set_sema Locked c) (Some i)); try done;
                   [apply lookup_insert_eq | right; by split; [left | right] |].
                 exists t0. split; [done |]. split; [done |]. cbn.
                 rewrite decide_True by done. split_and!; try done.
                 split; [done |]. subst a. by exists s', tr1, c'.
           ++ (* load of a private object *)
              destruct (Hrun _ _ Hc_u Hl_u) as (s' & tr & c' & Hrun' & _).
              apply run_Vis_Done in Hrun' as (x & s1 & tr1 & Hex & _).
              cbn in Hex. cbn.
              destruct (vars (ctx_priv t) !! q) as [w |] eqn:Hw; [| done].
              eexists _, T, a, holder, c.
              split; [done |]. split; [by left |]. cbn.
              eapply (config_inv_update_at _ _ cf T a holder i _ c holder);
                try done; [by left |].
              exists t0. split; [done |]. split; [done |]. cbn.
              rewrite decide_False by done. left. split_and!; try done.
              split; [done |]. intros sh2 c2 Hc2 Hl2.
              destruct (Hrun sh2 c2 Hc2 Hl2) as (s2 & tr2 & c2' & Hrun2 & ?).
              apply run_Vis_Done in Hrun2 as (x2 & s3 & tr3 & Hex2 & Hk2 & ->).
              cbn in Hex2. rewrite Hw in Hex2. injection Hex2 as <- <-.
              by exists s2, tr3, c2'.
           ++ (* store to a private object *)
              destruct (Hrun _ _ Hc_u Hl_u) as (s' & tr & c' & Hrun' & _).
              apply run_Vis_Done in Hrun' as (x & s1 & tr1 & Hex & _).
              cbn in Hex. cbn.
              destruct (vars (ctx_priv t) !! q) as [w |] eqn:Hw; [| done].
              eexists _, T, a, holder, c.
              split; [done |]. split; [by left |]. cbn.
              eapply (config_inv_update_at _ _ cf T a holder i _ c holder);
                try done; [by left |].
              exists t0. split; [done |]. split.
              { cbn. by apply lookup_insert_is_Some'; right. }
              cbn. rewrite decide_False by done. left. split_and!; try done.
              split; [done |]. intros sh2 c2 Hc2 Hl2.
              destruct (Hrun sh2 c2 Hc2 Hl2) as (s2 & tr2 & c2' & Hrun2 & ?).
              apply run_Vis_Done in Hrun2 as (x2 & s3 & tr3 & Hex2 & Hk2 & ->).
              cbn in Hex2. rewrite Hw in Hex2. destruct x2.
              injection Hex2 as <-. by exists s2, tr3, c2'.
        -- (* it has released it *)
           destruct e; cbn in Hd; try (by destruct_and?).
           ++ destruct (Hrun (cfg_shm cf)) as (s' & tr & Hrun').
              apply run_Vis_Done in Hrun' as (x & s1 & tr1 & Hex & _).
              cbn in Hex. cbn.
              destruct (vars (ctx_priv t) !! q) as [w |] eqn:Hw; [| done].
              eexists _, T, a, holder, c.
              split; [done |]. split; [by left |]. cbn.
              eapply (config_inv_update_at _ _ cf T a holder i _ c holder);
                try done; [by left |].
              exists t0. split; [done |]. split; [done |]. cbn.
              rewrite decide_False by done. right. exists r0.
              split_and!; try done. split; [done |]. intros sh2.
              destruct (Hrun sh2) as (s2 & tr2 & Hrun2).
              apply run_Vis_Done in Hrun2 as (x2 & s3 & tr3 & Hex2 & Hk2 & ->).
              cbn in Hex2. rewrite Hw in Hex2. injection Hex2 as <- <-.
              by exists s2, tr3.
           ++ destruct (Hrun (cfg_shm cf)) as (s' & tr & Hrun').
              apply run_Vis_Done in Hrun' as (x & s1 & tr1 & Hex & _).
              cbn in Hex. cbn.
              destruct (vars (ctx_priv t) !! q) as [w |] eqn:Hw; [| done].
              eexists _, T, a, holder, c.
              split; [done |]. split; [by left |]. cbn.
              eapply (config_inv_update_at _ _ cf T a holder i _ c holder);
                try done; [by left |].
              exists t0. split; [done |]. split.
              { cbn. by apply lookup_insert_is_Some'; right. }
              cbn. rewrite decide_False by done. right. exists r0.
              split_and!; try done. split; [done |]. intros sh2.
              destruct (Hrun sh2) as (s2 & tr2 & Hrun2).
              apply run_Vis_Done in Hrun2 as (x2 & s3 & tr3 & Hex2 & Hk2 & ->).
              cbn in Hex2. rewrite Hw in Hex2. destruct x2.
              injection Hex2 as <-. by exists s2, tr3.
  - destruct Hcur as (Hnh & Hb & Htodo).
    destruct (ctx_todo t) as [| cl todo] eqn:Htodo_eq;
      [by exists cf, T, a, holder, c; split; [| split; [left |]] |].
    (* invocation *)
    eexists _, (T ++ [MInvoke i cl]), a, holder, c.
    split; [done |]. split; [right; eexists; split_and!; [done | done | by eexists] |].
    unfold config_inv_at. cbn.
    split_and!.
    + by rewrite observed_snoc, Hobs.
    + by rewrite linearized_snoc, app_nil_r.
    + done.
    + destruct holder as [h |]; [| done]. destruct Hhold as [? Hh].
      split; [done |]. apply lookup_lt_is_Some. rewrite length_insert.
      by apply lookup_lt_is_Some.
    + by rewrite length_insert.
    + intros j tj Hj. destruct (decide (j = i)) as [-> | Hne].
      * rewrite list_lookup_insert_eq in Hj by done. injection Hj as <-.
        exists t0. split; [done |]. split; [done |]. cbn.
        rewrite decide_False by done. left.
        rewrite bracket_of_snoc, Hb. cbn. rewrite decide_True by done.
        rewrite linearized_snoc, app_nil_r. split_and!; try done.
        by apply call_prog_before.
      * rewrite list_lookup_insert_ne in Hj by done.
        eapply others_preserved; [exact Hctx | right; by eexists | by left | done | done].
Qed.

Lemma context_step_inv v0 ctxs0 i cf :
  config_inv kernel ptr v0 ctxs0 cf →
  ∃ cf', context_step kernel ptr i cf = Some cf' ∧
         config_inv kernel ptr v0 ctxs0 cf'.
Proof.
  intros (T & a & holder & c & Hinv).
  destruct (context_step_marks v0 ctxs0 i cf T a holder c Hinv)
    as (cf' & T' & a' & holder' & c' & Hstep & _ & Hinv').
  exists cf'. split; [done |]. by exists T', a', holder', c'.
Qed.

Lemma initial_config_inv v0 shm0 ctxs0 :
  shm0 !! ptr = Some {| sema := Unlocked; value := v0 |} →
  Forall context_ready ctxs0 →
  config_inv kernel ptr v0 ctxs0 (initial_config shm0 ctxs0).
Proof.
  intros Hc Hready.
  exists [], v0, None, {| sema := Unlocked; value := v0 |}. cbn.
  split_and!; try done.
  intros i t Hi. exists t. split; [done |].
  destruct (proj1 (Forall_lookup _ _) Hready i t Hi) as [Hcur Hq].
  split; [done |]. by rewrite Hcur.
Qed.

Lemma run_schedule_inv v0 ctxs0 sched cf :
  config_inv kernel ptr v0 ctxs0 cf →
  ∃ cf', run_schedule kernel ptr sched cf = Some cf' ∧
         config_inv kernel ptr v0 ctxs0 cf'.
Proof.
  revert cf. induction sched as [| i sched IH]; intros cf Hinv.
  - by exists cf.
  - destruct (context_step_inv v0 ctxs0 i cf Hinv) as (cf1 & Hstep & Hinv1).
    cbn. rewrite Hstep. by apply IH.
Qed.

(** ** The marks of a marked history belong to contexts that exist *)

Lemma run_schedule_marks v0 ctxs0 sched cf T a holder c :
  config_inv_at kernel ptr v0 ctxs0 cf T a holder c →
  marks_below (length ctxs0) T →
  ∃ cf' T' a' holder' c',
    run_schedule kernel ptr sched cf = Some cf' ∧
    config_inv_at kernel ptr v0 ctxs0 cf' T' a' holder' c' ∧
    marks_below (length ctxs0) T'.
Proof.
  revert cf T a holder c.
  induction sched as [| i sched IH]; intros cf T a holder c Hinv Hbelow.
  - by exists cf, T, a, holder, c.
  - destruct (context_step_marks v0 ctxs0 i cf T a holder c Hinv)
      as (cf1 & T1 & a1 & holder1 & c1 & Hstep & Hmark & Hinv1).
    cbn. rewrite Hstep. apply (IH cf1 T1 a1 holder1 c1 Hinv1).
    destruct Hmark as [-> | (m & -> & Hm & Hi)]; [done |].
    apply Forall_app. split; [done |]. apply Forall_singleton.
    destruct Hinv as (_ & _ & _ & _ & Hlen & _).
    rewrite Hm, <- Hlen. by apply lookup_lt_is_Some.
Qed.

Lemma initial_config_inv_at v0 shm0 ctxs0 :
  shm0 !! ptr = Some {| sema := Unlocked; value := v0 |} →
  Forall context_ready ctxs0 →
  config_inv_at kernel ptr v0 ctxs0 (initial_config shm0 ctxs0)
    [] v0 None {| sema := Unlocked; value := v0 |}.
Proof.
  intros Hc Hready. unfold config_inv_at. cbn. split_and!; try done.
  intros i t Hi. exists t. split; [done |].
  destruct (proj1 (Forall_lookup _ _) Hready i t Hi) as [Hcur Hq].
  split; [done |]. by rewrite Hcur.
Qed.

(** Once every context has made all its calls, the marked history is
    complete. *)
Lemma finished_config_marks v0 ctxs0 cf T a holder c :
  config_inv_at kernel ptr v0 ctxs0 cf T a holder c →
  Forall context_finished (cfg_ctxs cf) →
  observed T = cfg_hist cf ∧
  (∀ i, (i < length ctxs0)%nat → bracket_of i T = Some BIdle) ∧
  (∀ i t0, ctxs0 !! i = Some t0 →
           (calls_of i (linearized T)).*1 = ctx_todo t0) ∧
  (∀ i, (i < length ctxs0)%nat →
        returns_of i (cfg_hist cf) = calls_of i (linearized T)) ∧
  serial_run v0 (linearized T) = Some a ∧
  cfg_shm cf !! ptr = Some {| sema := Unlocked; value := a |}.
Proof.
  intros (Hobs & Hser & Hc & Hhold & Hlen & Hctx) Hfin.
  assert (∀ i, (i < length ctxs0)%nat →
               ∃ t t0, cfg_ctxs cf !! i = Some t ∧ ctxs0 !! i = Some t0 ∧
                       holder ≠ Some i ∧ bracket_of i T = Some BIdle ∧
                       (calls_of i (linearized T)).*1 = ctx_todo t0) as Hall.
  { intros i Hi. rewrite <- Hlen in Hi.
    destruct (lookup_lt_is_Some_2 _ _ Hi) as [t Ht].
    destruct (Hctx i t Ht) as (t0 & Ht0 & _ & Hcur).
    destruct (proj1 (Forall_lookup _ _) Hfin i t Ht) as [Hnone Htodo].
    rewrite Hnone, Htodo, app_nil_r in Hcur. by exists t, t0. }
  split_and!; try done.
  - intros i Hi. by destruct (Hall i Hi) as (? & ? & ? & ? & ? & ? & ?).
  - intros i t0 Ht0.
    destruct (Hall i (lookup_lt_Some _ _ _ Ht0)) as (? & t0' & ? & Ht0' & ? & ? & ?).
    congruence.
  - intros i Hi. destruct (Hall i Hi) as (? & ? & ? & ? & ? & Hb & ?).
    rewrite <- Hobs, <- (bracket_of_returns i T BIdle Hb). by rewrite app_nil_r.
  - destruct holder as [h |].
    + destruct Hhold as [_ Hh]. apply lookup_lt_is_Some in Hh.
      rewrite Hlen in Hh. by destruct (Hall h Hh) as (? & ? & ? & ? & ? & ? & ?).
    + destruct Hhold as [Hl Hv]. rewrite Hc. destruct c; cbn in *. by subst.
Qed.

End LinearizabilityProof.

(** C8: however the steps of the execution contexts are interleaved,
    the execution goes through no invalid address, and once every context
    has made all its calls there is a marked history [T], the observed
    history with one mark of effect added for each call, all of whose
    marks belong to the contexts that exist, and whose marks of effect, in
    order, are a serial execution of the calls, one call at a time, each
    with the result the specification of the call gives, such that: it
    contains the calls of every context, and only these, in the order the
    context made them; every call has in it the result the context got; a
    call that returned before another one was invoked comes before it
    (every call takes effect once, between its invocation and its return
    in the history); and it ends with the value the variable holds, the
    guard being unlocked. *)
Theorem cell_linearizable (kernel : Z → Z → Z) (ptr : loc) (v0 : Z)
    (shm0 : shared) (ctxs0 : list context) (sched : list nat) :
  shm0 !! ptr = Some {| sema := Unlocked; value := v0 |} →
  Forall context_ready ctxs0 →
  ∃ cf,
    run_schedule kernel ptr sched (initial_config shm0 ctxs0) = Some cf ∧
    (Forall context_finished (cfg_ctxs cf) →
     ∃ (T : list mark) (v : Z),
       marks_below (length ctxs0) T ∧
       observed T = cfg_hist cf ∧
       (∀ i, (i < length ctxs0)%nat → bracket_of i T = Some BIdle) ∧
       (∀ i t0, ctxs0 !! i = Some t0 →
                (calls_of i (linearized T)).*1 = ctx_todo t0) ∧
       (∀ i, (i < length ctxs0)%nat →
             returns_of i (cfg_hist cf) = calls_of i (linearized T)) ∧
       serial_run v0 (linearized T) = Some v ∧
       cfg_shm cf !! ptr = Some {| sema := Unlocked; value := v |}).
Proof.
  intros Hc Hready.
  destruct (run_schedule_marks kernel ptr v0 ctxs0 sched _ _ _ _ _
              (initial_config_inv_at kernel ptr v0 shm0 ctxs0 Hc Hready)
              (Forall_nil_2 _))
    as (cf & T & a & holder & c & Hrun & Hinv & Hbelow).
  exists cf. split; [done |]. intros Hfin. exists T, a. split; [done |].
  exact (finished_config_marks kernel ptr v0 ctxs0 cf T a holder c Hinv Hfin).
Qed.

Lemma cell_linearizable_witness :
  ∃ cf,
    run_schedule example_kernel 1 example_schedule
      (initial_config example_shared example_contexts) = Some cf ∧
    Forall context_finished (cfg_ctxs cf) ∧
    cfg_hist cf =
      [Invoke 0 (FetchAdd 1); Invoke 1 (FetchAdd 2);
       Return 0 (FetchAdd 1) (FetchAddResult 0);
       Invoke 0 (CompareExchange 3 10);
       Return 1 (FetchAdd 2) (FetchAddResult 1);
       Invoke 1 (CompareExchange 0 5);
       Return 0 (CompareExchange 3 10) (CompareExchangeResult true 3);
       Return 1 (CompareExchange 0 5) (CompareExchangeResult false 10)] ∧
    ∃ (T : list mark) (v : Z),
      marks_below (length example_contexts) T ∧
      observed T = cfg_hist cf ∧
      (∀ i, (i < length example_contexts)%nat → bracket_of i T = Some BIdle) ∧
      (∀ i t0, example_contexts !! i = Some t0 →
               (calls_of i (linearized T)).*1 = ctx_todo t0) ∧
      (∀ i, (i < length example_contexts)%nat →
            returns_of i (cfg_hist cf) = calls_of i (linearized T)) ∧
      serial_run 0 (linearized T) = Some v ∧
      cfg_shm cf !! 1%positive = Some {| sema := Unlocked; value := v |}.
Proof.
  assert (Forall context_ready example_contexts) as Hready.
  { repeat constructor; by eexists. }
  destruct (cell_linearizable example_kernel 1 0 example_shared
              example_contexts example_schedule eq_refl Hready)
    as (cf & Hrun & Hlin).
  exists cf. split; [exact Hrun |].
  vm_compute in Hrun. injection Hrun as <-.
  split; [repeat constructor |]. split; [reflexivity |].
  apply Hlin. repeat constructor.
Defined.

(** * Further properties of the atomic operations, one execution context *)

Section AtomicCellFurther.

Variable kernel : Z → Z → Z.

Lemma run_init_u64_inv s ptr val_ s' tr :
  run kernel (pg_atomic_init_u64_impl ptr val_) s = Done tt s' tr →
  ∃ c, shm s !! ptr = Some c.
Proof.
  intros Hrun. destruct s as [m pv]. cbn in *.
  destruct (m !! ptr) as [c |] eqn:Hc; [by exists c | done].
Qed.

(** X1: the three atomic operations touch nothing but their operands: a
    call that returns has left every other atomic variable as it was; init
    and fetch-and-add leave the private memory of the caller as it was,
    and compare-and-exchange changes it at most at [expected]. *)
Theorem atomic_operations_frame s ptr :
  (∀ val_ s' tr,
     run kernel (pg_atomic_init_u64_impl ptr val_) s = Done tt s' tr →
     priv s' = priv s ∧
     ∀ p, p ≠ ptr → shm s' !! p = shm s !! p) ∧
  (∀ add_ ret s' tr,
     run kernel (pg_atomic_fetch_add_u64_impl ptr add_) s = Done ret s' tr →
     priv s' = priv s ∧
     ∀ p, p ≠ ptr → shm s' !! p = shm s !! p) ∧
  (∀ expected newval ret s' tr,
     run kernel (pg_atomic_compare_exchange_u64_impl ptr expected newval) s =
       Done ret s' tr →
     PostmasterPid (priv s') = PostmasterPid (priv s) ∧
     MyProcPid (priv s') = MyProcPid (priv s) ∧
     (∀ q, q ≠ expected → vars (priv s') !! q = vars (priv s) !! q) ∧
     ∀ p, p ≠ ptr → shm s' !! p = shm s !! p).
Proof.
  split_and!.
  - intros val_ s' tr Hrun.
    destruct (run_init_u64_inv _ _ _ _ _ Hrun) as (c & Hc).
    rewrite (run_init_u64 kernel _ _ val_ _ Hc) in Hrun.
    injection Hrun as <- <-. cbn. split; [done |].
    intros p Hp. by rewrite lookup_insert_ne.
  - intros add_ ret s' tr Hrun.
    destruct (run_fetch_add_u64_inv _ _ _ _ _ _ _ Hrun) as (c & Hc & Hl).
    rewrite (run_fetch_add_u64 kernel _ _ add_ _ Hc Hl) in Hrun.
    injection Hrun as <- <- <-. cbn. split; [done |].
    intros p Hp. by rewrite lookup_insert_ne.
  - intros expected newval ret s' tr Hrun.
    destruct (run_compare_exchange_u64_inv _ _ _ _ _ _ _ _ Hrun)
      as (c & e & Hc & Hl & He).
    rewrite (run_compare_exchange_u64 kernel _ _ _ newval _ _ Hc Hl He) in Hrun.
    injection Hrun as <- <- <-. cbn. split_and!; try done.
    + intros q Hq. by rewrite lookup_insert_ne.
    + intros p Hp. by rewrite lookup_insert_ne.
Qed.

(** X2: two fetch-and-adds compose: the second returns what the first
    left, the value plus the first delta modulo 2^64, and together they
    leave the state that one fetch-and-add of the sum of the deltas
    leaves. *)
Theorem fetch_add_compose s ptr d1 d2 c :
  shm s !! ptr = Some c → sema c = Unlocked →
  ∃ s' tr tr',
    run kernel (a ← pg_atomic_fetch_add_u64_impl ptr d1;
                b ← pg_atomic_fetch_add_u64_impl ptr d2;
                mret (a, b)) s
      = Done (value c, (value c + d1) mod 2 ^ 64) s' tr ∧
    run kernel (pg_atomic_fetch_add_u64_impl ptr (d1 + d2)) s =
      Done (value c) s' tr' ∧
    shm s' !! ptr =
      Some {| sema := Unlocked; value := (value c + d1 + d2) mod 2 ^ 64 |}.
Proof.
  intros Hc Hl.
  rewrite run_bind, (run_fetch_add_u64 kernel s ptr d1 c Hc Hl). cbv beta iota.
  set (s1 := set_shm s _).
  assert (shm s1 !! ptr =
          Some {| sema := Unlocked;
                  value := uint64_add (value c) (uint64_of_int64 d1) |}) as Hc1
    by apply lookup_insert_eq.
  rewrite run_bind, (run_fetch_add_u64 kernel s1 ptr d2 _ Hc1 eq_refl).
  rewrite (run_fetch_add_u64 kernel s ptr (d1 + d2) c Hc Hl).
  cbn. rewrite !uint64_add_of_int64.
  assert (((value c + d1) mod 2 ^ 64 + d2) mod 2 ^ 64 =
          (value c + (d1 + d2)) mod 2 ^ 64) as ->.
  { rewrite Z.add_mod_idemp_l by done. f_equal. lia. }
  eexists _, _, _. split; [reflexivity |]. subst s1. unfold set_shm. cbn.
  rewrite insert_insert_eq. split; [reflexivity |].
  rewrite lookup_insert_eq. do 3 f_equal. lia.
Qed.

(** X3: on a variable that holds a [uint64], a fetch-and-add followed by
    the fetch-and-add of the opposite delta restores the state; the second
    call returns the intermediate value. *)
Theorem fetch_add_opposite_restores s ptr d c :
  shm s !! ptr = Some c → sema c = Unlocked → is_uint64 (value c) →
  ∃ tr,
    run kernel (pg_atomic_fetch_add_u64_impl ptr d;;
                pg_atomic_fetch_add_u64_impl ptr (- d)) s
      = Done ((value c + d) mod 2 ^ 64) s tr.
Proof.
  intros Hc Hl Hv.
  rewrite run_bind, (run_fetch_add_u64 kernel s ptr d c Hc Hl). cbv beta iota.
  set (s1 := set_shm s _).
  assert (shm s1 !! ptr =
          Some {| sema := Unlocked;
                  value := uint64_add (value c) (uint64_of_int64 d) |}) as Hc1
    by apply lookup_insert_eq.
  rewrite (run_fetch_add_u64 kernel s1 ptr (- d) _ Hc1 eq_refl).
  cbn. rewrite !uint64_add_of_int64.
  assert (((value c + d) mod 2 ^ 64 + - d) mod 2 ^ 64 = value c) as ->.
  { rewrite Z.add_mod_idemp_l by done.
    replace (value c + d + - d) with (value c) by lia.
    by apply Z.mod_small. }
  eexists. f_equal. subst s1. unfold set_shm. cbn.
  rewrite insert_insert_eq. destruct s as [m pv]. cbn in *. f_equal.
  apply insert_id. rewrite Hc. destruct c; cbn in *. by subst.
Qed.

(** X4: the two ways to read a variable with these operations.  A
    fetch-and-add of zero returns the value and, the value being a
    [uint64], leaves the state as it was.  A compare-and-exchange whose
    new value is the contents of [*expected] leaves the variable as it
    was, whether it succeeds or fails, and leaves the value in
    [*expected]. *)
Theorem read_idioms s ptr c :
  shm s !! ptr = Some c → sema c = Unlocked →
  (is_uint64 (value c) →
   ∃ tr, run kernel (pg_atomic_fetch_add_u64_impl ptr 0) s =
           Done (value c) s tr) ∧
  (∀ expected e, vars (priv s) !! expected = Some e →
     ∃ s' tr,
       run kernel (pg_atomic_compare_exchange_u64_impl ptr expected e) s =
         Done (bool_decide (value c = e)) s' tr ∧
       shm s' = shm s ∧
       vars (priv s') !! expected = Some (value c)).
Proof.
  intros Hc Hl.
  assert (∀ m : shared, m !! ptr = Some c →
            <[ptr := {| sema := Unlocked; value := value c |}]> m = m) as Hid.
  { intros m Hm. apply insert_id. rewrite Hm. destruct c; cbn in *. by subst. }
  split.
  - intros Hv. rewrite (run_fetch_add_u64 kernel s ptr 0 c Hc Hl).
    rewrite uint64_add_of_int64, Z.add_0_r, Z.mod_small by done.
    eexists. f_equal. destruct s as [m pv]. unfold set_shm. cbn in *.
    by rewrite Hid.
  - intros expected e He.
    rewrite (run_compare_exchange_u64 kernel s ptr expected e c e Hc Hl He).
    eexists _, _. split; [reflexivity |]. cbn. rewrite lookup_insert_eq.
    split; [| done]. case_bool_decide as Heq; [rewrite <- Heq |]; by apply Hid.
Qed.

(** X5: the retry of a failed compare-and-exchange succeeds: when
    [*expected] differs from the value, a first call fails and a second
    call with the same arguments, nothing having happened in between,
    succeeds; the variable then holds the new value and [*expected] the
    old one. *)
Theorem compare_exchange_retry_succeeds s ptr expected newval c e :
  shm s !! ptr = Some c → sema c = Unlocked →
  vars (priv s) !! expected = Some e → value c ≠ e →
  ∃ s' tr,
    run kernel (r1 ← pg_atomic_compare_exchange_u64_impl ptr expected newval;
                r2 ← pg_atomic_compare_exchange_u64_impl ptr expected newval;
                mret (r1, r2)) s
      = Done (false, true) s' tr ∧
    shm s' !! ptr = Some {| sema := Unlocked; value := newval |} ∧
    vars (priv s') !! expected = Some (value c).
Proof.
  intros Hc Hl He Hne.
  rewrite run_bind,
    (run_compare_exchange_u64 kernel s ptr expected newval c e Hc Hl He).
  rewrite bool_decide_eq_false_2 by done. cbv beta iota.
  set (s1 := set_vars _ _).
  assert (shm s1 !! ptr = Some {| sema := Unlocked; value := value c |}) as Hc1
    by apply lookup_insert_eq.
  assert (vars (priv s1) !! expected = Some (value c)) as He1
    by apply lookup_insert_eq.
  rewrite run_bind,
    (run_compare_exchange_u64 kernel s1 ptr expected newval _ _ Hc1 eq_refl He1).
  cbn. rewrite bool_decide_eq_true_2 by done.
  eexists _, _. split; [reflexivity |]. cbn. by rewrite !lookup_insert_eq.
Qed.

End AtomicCellFurther.

(** ** Sums of deltas *)

Lemma Zsum_app l1 l2 : Zsum (l1 ++ l2) = Zsum l1 + Zsum l2.
Proof.
  unfold Zsum. induction l1 as [| x l1 IH]; cbn; [done |]. rewrite IH. lia.
Qed.

Lemma Zsum_fmap_add {A} (f g : A → Z) (l : list A) :
  Zsum ((λ x, f x + g x) <$> l) = Zsum (f <$> l) + Zsum (g <$> l).
Proof.
  unfold Zsum. induction l as [| x l IH]; cbn; [done |]. rewrite IH. lia.
Qed.

Lemma Zsum_indicator (j : nat) (d : Z) (k n : nat) :
  Zsum ((λ i, if decide (j = i) then d else 0) <$> seq k n) =
  if decide (k ≤ j < k + n)%nat then d else 0.
Proof.
  revert k. induction n as [| n IH]; intros k; cbn.
  - rewrite decide_False by lia. done.
  - unfold Zsum in *. cbn. rewrite IH.
    repeat case_decide; lia.
Qed.

(** The deltas of a serial execution, summed over the execution and
    summed context by context. *)
Lemma Zsum_by_context (n : nat) (L : list (nat * call * result)) :
  Forall (λ x, (x.1.1 < n)%nat) L →
  Zsum ((λ x, call_delta x.1.2) <$> L) =
  Zsum ((λ i, Zsum (call_delta <$> (calls_of i L).*1)) <$> seq 0 n).
Proof.
  induction 1 as [| [[j c] r] L Hj _ IH].
  - generalize (seq 0 n). intros l. induction l as [| i l IHl]; [done |].
    rewrite fmap_cons. change (Zsum (?x :: ?l)) with (x + Zsum l).
    by rewrite <- IHl.
  - rewrite fmap_cons.
    change (Zsum (?x :: ?l)) with (x + Zsum l). rewrite IH.
    transitivity
      (Zsum ((λ i, (if decide (j = i) then call_delta c else 0)
                   + Zsum (call_delta <$> (calls_of i L).*1)) <$> seq 0 n)).
    + rewrite Zsum_fmap_add, Zsum_indicator. cbn in Hj.
      by rewrite decide_True by lia.
    + f_equal. apply list_fmap_ext. intros _ i _.
      unfold calls_of. cbn. by case_decide.
Qed.

Lemma fmap_seq_lookup {A B} (g : nat → B) (h : A → B) (l : list A) (k : nat) :
  (∀ i x, l !! i = Some x → g (k + i)%nat = h x) →
  g <$> seq k (length l) = h <$> l.
Proof.
  revert k. induction l as [| x l IH]; intros k Hgh; [done |].
  cbn. f_equal.
  - rewrite <- (Hgh 0%nat x eq_refl). f_equal. lia.
  - apply IH. intros i y Hi. rewrite <- (Hgh (S i) y Hi). f_equal. lia.
Qed.

Lemma linearized_below n T :
  marks_below n T → Forall (λ x, (x.1.1 < n)%nat) (linearized T).
Proof.
  induction 1 as [| m T Hm _ IH]; [constructor |].
  destruct m; cbn in *; [done | by constructor | done].
Qed.

Lemma elem_of_calls_of j c r (L : list (nat * call * result)) :
  (j, c, r) ∈ L → (c, r) ∈ calls_of j L.
Proof.
  intros Hin. unfold calls_of. apply list_elem_of_omap.
  exists (j, c, r). split; [done |]. cbn. by rewrite decide_True.
Qed.

(** A serial execution of fetch-and-adds from a [uint64] ends with the
    initial value plus the sum of the deltas, modulo 2^64. *)
Lemma serial_run_fetch_add (L : list (nat * call * result)) v0 v :
  is_uint64 v0 →
  Forall (λ x, is_fetch_add x.1.2) L →
  serial_run v0 L = Some v →
  v = (v0 + Zsum ((λ x, call_delta x.1.2) <$> L)) mod 2 ^ 64.
Proof.
  intros Hv0 Hfa. revert v0 Hv0.
  induction Hfa as [| [[j c] r] L Hc _ IH]; intros v0 Hv0 Hrun.
  - injection Hrun as <-. cbn. rewrite Z.add_0_r. symmetry.
    by apply Z.mod_small.
  - destruct c as [| add_]; [done |]. cbn in Hrun.
    case_decide; [| done].
    apply IH in Hrun; [| unfold is_uint64, UINT64_MODULUS;
                         by apply Z.mod_pos_bound].
    rewrite Hrun. cbn. rewrite Z.add_mod_idemp_l by done.
    f_equal. unfold Zsum. cbn. lia.
Qed.

(** * Further properties of the interleaving semantics *)

Section InterleavingFurther.

Variable kernel : Z → Z → Z.
Variable ptr : loc.

(** Once every context has made all its calls, nobody holds the guard, the
    variable holds the value of the serial execution, and the serial
    execution has the calls of every context. *)
Lemma finished_config_inv_at v0 ctxs0 cf T a holder c :
  config_inv_at kernel ptr v0 ctxs0 cf T a holder c →
  Forall context_finished (cfg_ctxs cf) →
  cfg_shm cf !! ptr = Some {| sema := Unlocked; value := a |} ∧
  ∀ i t0, ctxs0 !! i = Some t0 →
          (calls_of i (linearized T)).*1 = ctx_todo t0.
Proof.
  intros (Hobs & Hser & Hc & Hhold & Hlen & Hctx) Hfin.
  assert (∀ i, (i < length ctxs0)%nat →
               ∃ t0, ctxs0 !! i = Some t0 ∧ holder ≠ Some i ∧
                     (calls_of i (linearized T)).*1 = ctx_todo t0) as Hall.
  { intros i Hi. rewrite <- Hlen in Hi.
    destruct (lookup_lt_is_Some_2 _ _ Hi) as [t Ht].
    destruct (Hctx i t Ht) as (t0 & Ht0 & _ & Hcur).
    destruct (proj1 (Forall_lookup _ _) Hfin i t Ht) as [Hnone Htodo].
    rewrite Hnone, Htodo, app_nil_r in Hcur. exists t0.
    by destruct Hcur as (? & ? & ?). }
  split.
  - destruct holder as [h |].
    + destruct Hhold as [_ Hh]. apply lookup_lt_is_Some in Hh.
      rewrite Hlen in Hh. by destruct (Hall h Hh) as (? & ? & ? & ?).
    + destruct Hhold as [Hl Hv]. rewrite Hc. destruct c; cbn in *. by subst.
  - intros i t0 Ht0.
    destruct (Hall i (lookup_lt_Some _ _ _ Ht0)) as (t0' & Ht0' & _ & ?).
    congruence.
Qed.

(** ** No lost update *)

Lemma fetch_add_sum_at v0 ctxs0 cf T a holder c :
  is_uint64 v0 →
  Forall (λ t, Forall is_fetch_add (ctx_todo t)) ctxs0 →
  config_inv_at kernel ptr v0 ctxs0 cf T a holder c →
  marks_below (length ctxs0) T →
  Forall context_finished (cfg_ctxs cf) →
  cfg_shm cf !! ptr =
    Some {| sema := Unlocked; value := (v0 + total_delta ctxs0) mod 2 ^ 64 |}.
Proof.
  intros Hv0 Hfa Hinv Hbelow Hfin.
  destruct (finished_config_inv_at _ _ _ _ _ _ _ Hinv Hfin) as [Hshm Hcalls].
  destruct Hinv as (_ & Hser & _).
  apply linearized_below in Hbelow.
  rewrite Hshm. do 2 f_equal.
  rewrite (serial_run_fetch_add (linearized T) v0 a Hv0); [| | done].
  - f_equal. f_equal. rewrite (Zsum_by_context _ _ Hbelow).
    unfold total_delta. f_equal. apply fmap_seq_lookup.
    intros i t0 Ht0. cbn. by rewrite (Hcalls i t0 Ht0).
  - apply Forall_forall. intros [[j cl] r] Hin. cbn.
    pose proof (proj1 (Forall_forall _ _) Hbelow _ Hin) as Hj. cbn in Hj.
    destruct (lookup_lt_is_Some_2 _ _ Hj) as [t0 Ht0].
    pose proof (proj1 (Forall_lookup _ _) Hfa j t0 Ht0) as Hfa0.
    cbn in Hfa0. rewrite <- (Hcalls j t0 Ht0) in Hfa0.
    apply (proj1 (Forall_forall _ _) Hfa0).
    apply (list_elem_of_fmap_2 fst _ (cl, r)). by apply elem_of_calls_of.
Qed.

(** X6: no update is lost.  When all the calls are fetch-and-adds on a
    variable that holds a [uint64], then, however the steps of the
    contexts are interleaved, once every context has made all its calls
    the variable holds the initial value plus the sum of all the deltas,
    modulo 2^64, and its guard is unlocked. *)
Theorem fetch_add_no_lost_update v0 shm0 ctxs0 sched cf :
  shm0 !! ptr = Some {| sema := Unlocked; value := v0 |} →
  is_uint64 v0 →
  Forall context_ready ctxs0 →
  Forall (λ t, Forall is_fetch_add (ctx_todo t)) ctxs0 →
  run_schedule kernel ptr sched (initial_config shm0 ctxs0) = Some cf →
  Forall context_finished (cfg_ctxs cf) →
  cfg_shm cf !! ptr =
    Some {| sema := Unlocked; value := (v0 + total_delta ctxs0) mod 2 ^ 64 |}.
Proof.
  intros Hc Hv0 Hready Hfa Hrun Hfin.
  destruct (run_schedule_marks kernel ptr v0 ctxs0 sched _ _ _ _ _
              (initial_config_inv_at kernel ptr v0 shm0 ctxs0 Hc Hready)
              (Forall_nil_2 _))
    as (cf' & T & a & holder & c & Hrun' & Hinv & Hbelow).
  rewrite Hrun in Hrun'. injection Hrun' as <-.
  by eapply fetch_add_sum_at.
Qed.

Lemma total_delta_counters (n : Z) (ctxs : list context) :
  Forall (λ t, ∃ m : nat, ctx_todo t = replicate m (FetchAdd 1) ∧ Z.of_nat m = n)
         ctxs →
  total_delta ctxs = Z.of_nat (length ctxs) * n.
Proof.
  unfold total_delta. induction 1 as [| t ctxs (m & Htodo & Hm) _ IH].
  - done.
  - rewrite fmap_cons. change (Zsum (?x :: ?l)) with (x + Zsum l).
    rewrite IH, Htodo.
    assert (Zsum (call_delta <$> replicate m (FetchAdd 1)) = Z.of_nat m) as ->.
    { clear. induction m as [| m IHm]; [done |].
      cbn [replicate]. rewrite fmap_cons.
      change (Zsum (?x :: ?l)) with (x + Zsum l). rewrite IHm. cbn. lia. }
    cbn [length]. lia.
Qed.

(** X7: the counter.  When each of N contexts makes M calls of
    fetch-and-add with delta 1 on a variable that holds a [uint64], then,
    however their steps are interleaved, once all have finished the
    variable holds the initial value plus N * M, modulo 2^64. *)
Theorem fetch_add_counter v0 shm0 ctxs0 (M : nat) sched cf :
  shm0 !! ptr = Some {| sema := Unlocked; value := v0 |} →
  is_uint64 v0 →
  Forall context_ready ctxs0 →
  Forall (λ t, ctx_todo t = replicate M (FetchAdd 1)) ctxs0 →
  run_schedule kernel ptr sched (initial_config shm0 ctxs0) = Some cf →
  Forall context_finished (cfg_ctxs cf) →
  cfg_shm cf !! ptr =
    Some {| sema := Unlocked;
            value := (v0 + Z.of_nat (length ctxs0) * Z.of_nat M) mod 2 ^ 64 |}.
Proof.
  intros Hc Hv0 Hready Htodo Hrun Hfin.
  destruct (run_schedule_marks kernel ptr v0 ctxs0 sched _ _ _ _ _
              (initial_config_inv_at kernel ptr v0 shm0 ctxs0 Hc Hready)
              (Forall_nil_2 _))
    as (cf' & T & a & holder & c & Hrun' & Hinv & Hbelow).
  rewrite Hrun in Hrun'. injection Hrun' as <-.
  rewrite <- (total_delta_counters (Z.of_nat M) ctxs0).
  - eapply fetch_add_sum_at; try done.
    eapply Forall_impl; [exact Htodo |]. intros t ->.
    apply Forall_forall. intros cl Hcl.
    apply elem_of_replicate in Hcl as [-> _]. done.
  - eapply Forall_impl; [exact Htodo |]. intros t ->. by exists M.
Qed.

(** ** Mutual exclusion *)

(** The phase of a program that follows the discipline is determined. *)
Lemma guard_discipline_phase {A : Type} (m : prog A) ph1 ph2 :
  guard_discipline ptr ph1 m → guard_discipline ptr ph2 m → ph1 = ph2.
Proof.
  revert ph1 ph2. induction m as [a | X e k IH]; intros ph1 ph2 H1 H2.
  - cbn in *. congruence.
  - destruct e; cbn in H1, H2; try done; destruct_and?; try congruence.
    + exact (IH 0 _ _ (H1 0) (H2 0)).
    + exact (IH tt _ _ H1 H2).
Qed.

Lemma config_inv_critical_section v0 ctxs0 cf T a holder c i t :
  config_inv_at kernel ptr v0 ctxs0 cf T a holder c →
  cfg_ctxs cf !! i = Some t →
  in_critical_section ptr t ↔ holder = Some i.
Proof.
  intros (_ & _ & _ & _ & _ & Hctx) Hi.
  destruct (Hctx i t Hi) as (t0 & _ & _ & Hcur). split.
  - intros (cl & m & Hm & Hd). rewrite Hm in Hcur.
    case_decide as Hh; [done |].
    destruct Hcur as [(_ & _ & Hd' & _) | (r & _ & _ & Hd' & _)];
      by pose proof (guard_discipline_phase m _ _ Hd Hd').
  - intros ->. destruct (ctx_cur t) as [[cl m] |] eqn:Hm.
    + rewrite decide_True in Hcur by done.
      destruct Hcur as (_ & _ & Hd & _). by exists cl, m.
    + by destruct Hcur as (? & _).
Qed.

(** X8: mutual exclusion.  In every configuration an execution reaches,
    at most one context is in its critical section, and the guard of the
    variable is locked exactly when some context is. *)
Theorem critical_section_exclusive v0 shm0 ctxs0 sched cf :
  shm0 !! ptr = Some {| sema := Unlocked; value := v0 |} →
  Forall context_ready ctxs0 →
  run_schedule kernel ptr sched (initial_config shm0 ctxs0) = Some cf →
  (∀ i j ti tj,
     cfg_ctxs cf !! i = Some ti → cfg_ctxs cf !! j = Some tj →
     in_critical_section ptr ti → in_critical_section ptr tj → i = j) ∧
  ∃ c, cfg_shm cf !! ptr = Some c ∧
       (sema c = Locked ↔
        ∃ i t, cfg_ctxs cf !! i = Some t ∧ in_critical_section ptr t).
Proof.
  intros Hc Hready Hrun.
  destruct (run_schedule_marks kernel ptr v0 ctxs0 sched _ _ _ _ _
              (initial_config_inv_at kernel ptr v0 shm0 ctxs0 Hc Hready)
              (Forall_nil_2 _))
    as (cf' & T & a & holder & c & Hrun' & Hinv & _).
  rewrite Hrun in Hrun'. injection Hrun' as <-.
  split.
  - intros i j ti tj Hi Hj Hti Htj.
    apply (config_inv_critical_section _ _ _ _ _ _ _ _ _ Hinv Hi) in Hti.
    apply (config_inv_critical_section _ _ _ _ _ _ _ _ _ Hinv Hj) in Htj.
    congruence.
  - exists c. pose proof Hinv as (_ & _ & Hcell & Hhold & _).
    split; [done |]. split.
    + intros Hl. destruct holder as [h |].
      * destruct Hhold as [_ [t Ht]]. exists h, t. split; [done |].
        by apply (config_inv_critical_section _ _ _ _ _ _ _ _ _ Hinv Ht).
      * destruct Hhold as [Hl' _]. congruence.
    + intros (i & t & Hi & Ht).
      apply (config_inv_critical_section _ _ _ _ _ _ _ _ _ Hinv Hi) in Ht.
      subst holder. by destruct Hhold.
Qed.

(** ** A guard that nobody will release *)

Lemma leaked_guard_step shm0 ctxs0 c i cf cf' :
  shm0 !! ptr = Some c → sema c = Locked →
  leaked_guard_inv ptr shm0 ctxs0 cf →
  context_step kernel ptr i cf = Some cf' →
  leaked_guard_inv ptr shm0 ctxs0 cf'.
Proof.
  intros Hc Hl Hinv. pose proof Hinv as (Hshm & Hhist & Hlen & Hctx).
  unfold context_step.
  destruct (cfg_ctxs cf !! i) as [t |] eqn:Hi; [| by intros [= <-]].
  assert (i < length (cfg_ctxs cf))%nat as Hlt by by eapply lookup_lt_Some.
  pose proof (Hctx i t Hi) as Hcur.
  assert (∀ cf1 t1,
            cfg_shm cf1 = shm0 → Forall is_invoke (cfg_hist cf1) →
            cfg_ctxs cf1 = <[i := t1]> (cfg_ctxs cf) →
            (∀ cl m, ctx_cur t1 = Some (cl, m) → guard_discipline ptr Before m) →
            is_Some (ctx_cur t1) →
            leaked_guard_inv ptr shm0 ctxs0 cf1) as Hupd.
  { intros cf1 t1 Hshm1 Hhist1 Hctxs1 Ht1 [[cl1 m1] Hsome].
    split_and!; try done.
    - by rewrite Hctxs1, length_insert.
    - intros j tj. rewrite Hctxs1. destruct (decide (j = i)) as [-> | Hne].
      + rewrite list_lookup_insert_eq by done. intros [= <-].
        rewrite Hsome. by eapply Ht1.
      + rewrite list_lookup_insert_ne by done. apply Hctx. }
  destruct (ctx_cur t) as [[cl m] |] eqn:Hcur_eq.
  - destruct m as [r | X e k]; [done |].
    destruct e; cbn in Hcur; try (by destruct_and?); cbn.
    + (* acquire: the guard is locked *)
      destruct Hcur as (-> & _). rewrite Hshm, Hc, Hl. by intros [= <-].
    + destruct (vars (ctx_priv t) !! q) as [w |]; [| done]. intros [= <-].
      eapply Hupd; cbn; try done. by intros ? ? [= <- <-].
    + destruct (vars (ctx_priv t) !! q) as [w |]; [| done]. intros [= <-].
      eapply Hupd; cbn; try done. by intros ? ? [= <- <-].
  - destruct (ctx_todo t) as [| cl todo] eqn:Htodo; [by intros [= <-] |].
    intros [= <-]. eapply Hupd; cbn; try done.
    + apply Forall_app. by split; [| apply Forall_singleton].
    + intros ? ? [= <- <-].
      destruct cl as [e newval | add_]; cbn.
      * split_and!; try done. intros v e'. split_and!; try done.
        intros v'. case_bool_decide; cbn; by split_and!.
      * by split_and!.
Qed.

(** X9: a guard left locked stalls the variable for good.  When the guard
    is locked and no context is in a call, so that nobody will release it,
    then, whatever the schedule, the shared memory never changes, no call
    ever returns, and no context that has a call to make ever finishes. *)
Theorem leaked_guard_stalls shm0 ctxs0 c sched cf :
  shm0 !! ptr = Some c → sema c = Locked →
  Forall (λ t, ctx_cur t = None) ctxs0 →
  run_schedule kernel ptr sched (initial_config shm0 ctxs0) = Some cf →
  cfg_shm cf = shm0 ∧
  (∀ i, returns_of i (cfg_hist cf) = []) ∧
  ∀ i t0 t, ctxs0 !! i = Some t0 → ctx_todo t0 ≠ [] →
            cfg_ctxs cf !! i = Some t → ¬ context_finished t.
Proof.
  intros Hc Hl Hidle Hrun.
  assert (leaked_guard_inv ptr shm0 ctxs0 cf) as (Hshm & Hhist & Hlen & Hctx).
  { assert (leaked_guard_inv ptr shm0 ctxs0 (initial_config shm0 ctxs0)) as Hinv.
    { split_and!; try done. intros i t Hi. cbn in Hi.
      rewrite (proj1 (Forall_lookup _ _) Hidle i t Hi). by exists t. }
    revert Hrun Hinv. generalize (initial_config shm0 ctxs0).
    induction sched as [| i sched IH]; intros cf0 Hrun Hinv.
    - by injection Hrun as <-.
    - cbn in Hrun.
      destruct (context_step kernel ptr i cf0) as [cf1 |] eqn:Hstep; [| done].
      eapply IH; [done |]. by eapply leaked_guard_step. }
  split_and!; [done | |].
  - intros i. induction Hhist as [| ev h Hev _ IH]; [done |].
    by destruct ev.
  - intros i t0 t Ht0 Htodo Ht [Hcur Hfin].
    specialize (Hctx i t Ht). rewrite Hcur in Hctx.
    destruct Hctx as (t0' & Ht0' & Heq). congruence.
Qed.

(** ** Every call can complete *)

Lemma run_schedule_app sched1 sched2 cf :
  run_schedule kernel ptr (sched1 ++ sched2) cf =
  run_schedule kernel ptr sched1 cf ≫= run_schedule kernel ptr sched2.
Proof.
  revert cf. induction sched1 as [| i sched1 IH]; intros cf; [done |].
  cbn. destruct (context_step kernel ptr i cf) as [cf1 |]; [apply IH | done].
Qed.

(** A context that takes steps alone does what the sequential semantics
    says: after as many steps as the run has actions it is about to
    return the result of the run, in the state of the run. *)
Lemma solo_run (m : prog result) cf i t cl r s' tr :
  cfg_ctxs cf !! i = Some t → ctx_cur t = Some (cl, m) →
  run kernel m {| shm := cfg_shm cf; priv := ctx_priv t |} = Done r s' tr →
  run_schedule kernel ptr (replicate (length tr) i) cf =
    Some {| cfg_shm := shm s';
            cfg_ctxs := <[i := {| ctx_priv := priv s';
                                  ctx_expected := ctx_expected t;
                                  ctx_todo := ctx_todo t;
                                  ctx_cur := Some (cl, Ret r) |}]> (cfg_ctxs cf);
            cfg_hist := cfg_hist cf |}.
Proof.
  revert cf t tr. induction m as [r0 | X e k IH]; intros cf t tr Hi Hcur Hrun.
  - injection Hrun as <- <- <-. cbn. f_equal.
    destruct cf as [sh ctxs h], t as [pv q todo cur]. cbn in *. subst cur.
    by rewrite list_insert_id.
  - apply run_Vis_Done in Hrun as (x & s1 & tr1 & Hex & Hk & ->).
    assert (i < length (cfg_ctxs cf))%nat as Hlt by by eapply lookup_lt_Some.
    cbn [length replicate run_schedule]. unfold context_step at 1.
    rewrite Hi, Hcur, Hex.
    erewrite (IH x _ _ tr1); [| by apply list_lookup_insert_eq | done |].
    + cbn. by rewrite list_insert_insert_eq.
    + cbn. by destruct s1.
Qed.

(** ... and with one more step it has returned. *)
Lemma solo_call (m : prog result) cf i t cl r s' tr :
  cfg_ctxs cf !! i = Some t → ctx_cur t = Some (cl, m) →
  run kernel m {| shm := cfg_shm cf; priv := ctx_priv t |} = Done r s' tr →
  run_schedule kernel ptr (replicate (length tr) i ++ [i]) cf =
    Some {| cfg_shm := shm s';
            cfg_ctxs := <[i := {| ctx_priv := priv s';
                                  ctx_expected := ctx_expected t;
                                  ctx_todo := ctx_todo t;
                                  ctx_cur := None |}]> (cfg_ctxs cf);
            cfg_hist := cfg_hist cf ++ [Return i cl r] |}.
Proof.
  intros Hi Hcur Hrun.
  assert (i < length (cfg_ctxs cf))%nat as Hlt by by eapply lookup_lt_Some.
  rewrite run_schedule_app, (solo_run m cf i t cl r s' tr Hi Hcur Hrun).
  cbn. unfold context_step. cbn. rewrite list_lookup_insert_eq by done. cbn.
  by rewrite list_insert_insert_eq.
Qed.

Lemma sum_list_with_insert_lt {A} (f : A → nat) (l : list A) i x y :
  l !! i = Some x → (f y < f x)%nat →
  (sum_list_with f (<[i := y]> l) < sum_list_with f l)%nat.
Proof.
  revert i. induction l as [| z l IH]; intros [| i] Hi Hlt; simplify_eq/=;
    [lia |].
  specialize (IH i Hi Hlt). lia.
Qed.

Lemma finished_or_not (l : list context) :
  Forall context_finished l ∨
  ∃ i t, l !! i = Some t ∧
         (is_Some (ctx_cur t) ∨ (ctx_cur t = None ∧ ctx_todo t ≠ [])).
Proof.
  induction l as [| t l [IH | (i & t' & Hi & Ht')]].
  - by left.
  - destruct (ctx_cur t) as [cm |] eqn:Hcur.
    { right. exists 0%nat, t. split; [done |]. left. by rewrite Hcur. }
    destruct (ctx_todo t) as [| cl todo] eqn:Htodo.
    + left. by constructor.
    + right. exists 0%nat, t. split; [done |]. right. by rewrite Htodo.
  - right. by exists (S i), t'.
Qed.

Lemma progress_unlocked v0 ctxs0 (W : nat) cf :
  config_inv kernel ptr v0 ctxs0 cf →
  (∃ c, cfg_shm cf !! ptr = Some c ∧ sema c = Unlocked) →
  (config_work cf ≤ W)%nat →
  ∃ sched cf', run_schedule kernel ptr sched cf = Some cf' ∧
               Forall context_finished (cfg_ctxs cf').
Proof.
  revert cf. induction W as [| W IH]; intros cf Hinv (c & Hc & Hl) HW.
  - exists [], cf. split; [done |].
    destruct (finished_or_not (cfg_ctxs cf)) as [? | (i & t & Hi & Ht)]; [done |].
    exfalso. unfold config_work in HW.
    assert (context_work t ≤ 0)%nat as Hle.
    { etrans; [| exact HW]. apply sum_list_with_in.
      apply list_elem_of_lookup. by exists i. }
    unfold context_work in Hle.
    destruct Ht as [[cm Hcm] | [Hnone Htodo]].
    + rewrite Hcm in Hle. lia.
    + destruct (ctx_todo t); [done |]. cbn in Hle. lia.
  - destruct (finished_or_not (cfg_ctxs cf)) as [? | (i & t & Hi & Ht)];
      [by exists [], cf |].
    assert (i < length (cfg_ctxs cf))%nat as Hlt by by eapply lookup_lt_Some.
    assert (∀ sched1 cf1 t1,
              run_schedule kernel ptr sched1 cf = Some cf1 →
              cfg_ctxs cf1 = <[i := t1]> (cfg_ctxs cf) →
              (context_work t1 < context_work t)%nat →
              (∃ c1, cfg_shm cf1 !! ptr = Some c1 ∧ sema c1 = Unlocked) →
              ∃ sched cf', run_schedule kernel ptr sched cf = Some cf' ∧
                           Forall context_finished (cfg_ctxs cf')) as Hnext.
    { intros sched1 cf1 t1 Hrun1 Hctxs1 Hwork Hcell1.
      destruct (run_schedule_inv kernel ptr v0 ctxs0 sched1 cf Hinv)
        as (cf1' & Hrun1' & Hinv1).
      rewrite Hrun1 in Hrun1'. injection Hrun1' as <-.
      destruct (IH cf1 Hinv1 Hcell1) as (sched2 & cf2 & Hrun2 & Hfin).
      { unfold config_work in *. rewrite Hctxs1.
        pose proof (sum_list_with_insert_lt context_work _ i t t1 Hi Hwork).
        lia. }
      exists (sched1 ++ sched2), cf2.
      by rewrite run_schedule_app, Hrun1. }
    pose proof Hinv as (T & a & holder & c0 & _ & _ & Hc0 & Hhold & _ & Hctx).
    rewrite Hc in Hc0. injection Hc0 as <-.
    destruct holder as [h |]; [destruct Hhold; congruence |].
    destruct (Hctx i t Hi) as (t0 & _ & _ & Hcur).
    destruct Ht as [[[cl m] Hcm] | [Hnone Htodo]].
    + rewrite Hcm in Hcur. rewrite decide_False in Hcur by done.
      assert (∃ r s' tr c',
                run kernel m {| shm := cfg_shm cf; priv := ctx_priv t |} =
                  Done r s' tr ∧
                shm s' !! ptr = Some c' ∧ sema c' = Unlocked)
        as (r & s' & tr & c' & Hrun & Hc' & Hl').
      { destruct Hcur as [(_ & _ & _ & Hrun) | (r & _ & _ & Hd & Hrun)].
        - destruct (Hrun _ _ Hc Hl) as (s' & tr & c' & Hrun' & Hc' & Hl' & _).
          by eexists _, s', tr, c'.
        - destruct (Hrun (cfg_shm cf)) as (s' & tr & Hrun').
          exists r, s', tr, c. split; [done |].
          destruct (after_discipline_run kernel ptr _ _ _ _ _ _ Hd Hrun')
            as [-> _]. done. }
      eapply Hnext; [exact (solo_call m cf i t cl r s' tr Hi Hcm Hrun) | done | |].
      * unfold context_work. cbn. rewrite Hcm. lia.
      * by exists c'.
    + destruct (ctx_todo t) as [| cl todo] eqn:Htodo_eq; [done |].
      eapply (Hnext [i]).
      * cbn. unfold context_step. rewrite Hi, Hnone, Htodo_eq. done.
      * done.
      * unfold context_work. cbn. rewrite Hnone, Htodo_eq. cbn. lia.
      * by exists c.
Qed.

(** X10: no deadlock.  From every configuration an execution reaches
    there is a continuation in which every context completes all its
    calls: whoever holds the guard can finish its call on its own, and
    then every other context can. *)
Theorem every_call_can_complete v0 shm0 ctxs0 sched cf :
  shm0 !! ptr = Some {| sema := Unlocked; value := v0 |} →
  Forall context_ready ctxs0 →
  run_schedule kernel ptr sched (initial_config shm0 ctxs0) = Some cf →
  ∃ sched' cf',
    run_schedule kernel ptr sched' cf = Some cf' ∧
    Forall context_finished (cfg_ctxs cf').
Proof.
  intros Hc0 Hready Hrun.
  destruct (run_schedule_inv kernel ptr v0 ctxs0 sched _
              (initial_config_inv kernel ptr v0 shm0 ctxs0 Hc0 Hready))
    as (cf0 & Hrun0 & Hinv).
  rewrite Hrun in Hrun0. injection Hrun0 as <-.
  pose proof Hinv as (T & a & holder & c & _ & _ & Hc & Hhold & _ & Hctx).
  destruct holder as [h |].
  - (* the holder of the guard finishes its call first *)
    destruct Hhold as [Hl [t Hh]].
    destruct (Hctx h t Hh) as (t0 & _ & _ & Hcur).
    destruct (ctx_cur t) as [[cl m] |] eqn:Hcm; [| by destruct Hcur].
    rewrite decide_True in Hcur by done.
    destruct Hcur as (_ & _ & _ & s' & tr & c' & Hrunm & Hc' & Hl' & _).
    pose proof (solo_call m cf h t cl _ s' tr Hh Hcm Hrunm) as Hsolo.
    destruct (run_schedule_inv kernel ptr v0 ctxs0
                (replicate (length tr) h ++ [h]) cf Hinv)
      as (cf1 & Hrun1 & Hinv1).
    rewrite Hsolo in Hrun1. injection Hrun1 as Hcf1.
    destruct (progress_unlocked v0 ctxs0 (config_work cf1) cf1 Hinv1)
      as (sched2 & cf2 & Hrun2 & Hfin); [| done |].
    { exists c'. by rewrite <- Hcf1. }
    exists ((replicate (length tr) h ++ [h]) ++ sched2), cf2.
    by rewrite run_schedule_app, Hsolo, Hcf1.
  - destruct Hhold as [Hl _].
    apply (progress_unlocked v0 ctxs0 (config_work cf) cf Hinv); [| done].
    by exists c.
Qed.

End InterleavingFurther.

(** * Instances *)

Lemma atomic_operations_frame_witness :
  ∃ s' tr,
    run example_kernel (pg_atomic_compare_exchange_u64_impl 1 7 9)
        example_two_variables = Done false s' tr ∧
    (∀ q, q ≠ 7%positive →
          vars (priv s') !! q = vars (priv example_two_variables) !! q) ∧
    (∀ p, p ≠ 1%positive → shm s' !! p = shm example_two_variables !! p).
Proof.
  assert (∃ s' tr,
            run example_kernel (pg_atomic_compare_exchange_u64_impl 1 7 9)
                example_two_variables = Done false s' tr)
    as (s' & tr & Hrun).
  { eexists _, _. vm_compute. reflexivity. }
  exists s', tr. split; [done |].
  destruct (atomic_operations_frame example_kernel example_two_variables 1)
    as (_ & _ & Hcas).
  by destruct (Hcas _ _ _ _ _ Hrun) as (_ & _ & Hvars & Hshm).
Defined.

Lemma fetch_add_compose_witness :
  ∃ s' tr tr',
    run example_kernel (a ← pg_atomic_fetch_add_u64_impl 1 (- 3);
                        b ← pg_atomic_fetch_add_u64_impl 1 7;
                        mret (a, b)) (example_state 5 0)
      = Done (5, 2) s' tr ∧
    run example_kernel (pg_atomic_fetch_add_u64_impl 1 (- 3 + 7))
        (example_state 5 0) = Done 5 s' tr' ∧
    shm s' !! 1%positive = Some {| sema := Unlocked; value := 9 |}.
Proof.
  apply (fetch_add_compose example_kernel (example_state 5 0) 1 (- 3) 7
           {| sema := Unlocked; value := 5 |}); reflexivity.
Defined.

Lemma fetch_add_opposite_restores_witness :
  ∃ tr,
    run example_kernel (pg_atomic_fetch_add_u64_impl 1 (- 9);;
                        pg_atomic_fetch_add_u64_impl 1 (- - 9))
        (example_state 5 0)
      = Done (2 ^ 64 - 4) (example_state 5 0) tr.
Proof.
  apply (fetch_add_opposite_restores example_kernel (example_state 5 0) 1 (- 9)
           {| sema := Unlocked; value := 5 |}); [reflexivity | reflexivity |].
  unfold is_uint64, UINT64_MODULUS. cbn. lia.
Defined.

Lemma read_idioms_witness :
  (∃ tr, run example_kernel (pg_atomic_fetch_add_u64_impl 1 0)
             (example_state 5 0) = Done 5 (example_state 5 0) tr) ∧
  (∃ s' tr,
     run example_kernel (pg_atomic_compare_exchange_u64_impl 1 7 0)
         (example_state 5 0) = Done false s' tr ∧
     shm s' = shm (example_state 5 0) ∧
     vars (priv s') !! 7%positive = Some 5).
Proof.
  destruct (read_idioms example_kernel (example_state 5 0) 1
              {| sema := Unlocked; value := 5 |} eq_refl eq_refl)
    as [Hfaa Hcas].
  split.
  - apply Hfaa. unfold is_uint64, UINT64_MODULUS. cbn. lia.
  - apply (Hcas 7%positive 0). reflexivity.
Defined.

Lemma compare_exchange_retry_succeeds_witness :
  ∃ s' tr,
    run example_kernel
        (r1 ← pg_atomic_compare_exchange_u64_impl 1 7 9;
         r2 ← pg_atomic_compare_exchange_u64_impl 1 7 9;
         mret (r1, r2)) (example_state 5 6)
      = Done (false, true) s' tr ∧
    shm s' !! 1%positive = Some {| sema := Unlocked; value := 9 |} ∧
    vars (priv s') !! 7%positive = Some 5.
Proof.
  apply (compare_exchange_retry_succeeds example_kernel (example_state 5 6)
           1 7 9 {| sema := Unlocked; value := 5 |} 6);
    [reflexivity | reflexivity | reflexivity | discriminate].
Defined.

Lemma example_counters_ready : Forall context_ready example_counters.
Proof. repeat constructor; by eexists. Qed.

Lemma example_contexts_ready : Forall context_ready example_contexts.
Proof. repeat constructor; by eexists. Qed.

Lemma fetch_add_no_lost_update_witness :
  ∃ cf,
    run_schedule example_kernel 1 example_round_robin
      (initial_config example_shared example_counters) = Some cf ∧
    Forall context_finished (cfg_ctxs cf) ∧
    cfg_shm cf !! 1%positive = Some {| sema := Unlocked; value := 6 |}.
Proof.
  destruct (run_schedule_inv example_kernel 1 0 example_counters
              example_round_robin _
              (initial_config_inv example_kernel 1 0 example_shared
                 example_counters eq_refl example_counters_ready))
    as (cf & Hrun & _).
  assert (Forall context_finished (cfg_ctxs cf)) as Hfin.
  { pose proof Hrun as Hcf. vm_compute in Hcf. injection Hcf as <-.
    repeat constructor. }
  exists cf. split; [exact Hrun |]. split; [exact Hfin |].
  apply (fetch_add_no_lost_update example_kernel 1 0 example_shared
           example_counters example_round_robin cf eq_refl).
  - unfold is_uint64, UINT64_MODULUS. lia.
  - apply example_counters_ready.
  - repeat constructor.
  - exact Hrun.
  - exact Hfin.
Defined.

Lemma fetch_add_counter_witness :
  ∃ cf,
    run_schedule example_kernel 1 example_round_robin
      (initial_config example_shared example_counters) = Some cf ∧
    Forall context_finished (cfg_ctxs cf) ∧
    cfg_shm cf !! 1%positive =
      Some {| sema := Unlocked; value := (0 + 3 * 2) mod 2 ^ 64 |}.
Proof.
  destruct (run_schedule_inv example_kernel 1 0 example_counters
              example_round_robin _
              (initial_config_inv example_kernel 1 0 example_shared
                 example_counters eq_refl example_counters_ready))
    as (cf & Hrun & _).
  assert (Forall context_finished (cfg_ctxs cf)) as Hfin.
  { pose proof Hrun as Hcf. vm_compute in Hcf. injection Hcf as <-.
    repeat constructor. }
  exists cf. split; [exact Hrun |]. split; [exact Hfin |].
  apply (fetch_add_counter example_kernel 1 0 example_shared
           example_counters 2 example_round_robin cf eq_refl).
  - unfold is_uint64, UINT64_MODULUS. lia.
  - apply example_counters_ready.
  - repeat constructor.
  - exact Hrun.
  - exact Hfin.
Defined.

Lemma critical_section_exclusive_witness :
  ∃ cf t,
    run_schedule example_kernel 1 [0; 0; 0; 0; 0]%nat
      (initial_config example_shared example_contexts) = Some cf ∧
    cfg_ctxs cf !! 0%nat = Some t ∧ in_critical_section 1 t ∧
    (∀ i j ti tj,
       cfg_ctxs cf !! i = Some ti → cfg_ctxs cf !! j = Some tj →
       in_critical_section 1 ti → in_critical_section 1 tj → i = j) ∧
    ∃ c, cfg_shm cf !! 1%positive = Some c ∧
         (sema c = Locked ↔
          ∃ i t, cfg_ctxs cf !! i = Some t ∧ in_critical_section 1 t).
Proof.
  destruct (run_schedule_inv example_kernel 1 0 example_contexts
              [0; 0; 0; 0; 0]%nat _
              (initial_config_inv example_kernel 1 0 example_shared
                 example_contexts eq_refl example_contexts_ready))
    as (cf & Hrun & _).
  pose proof (critical_section_exclusive example_kernel 1 0 example_shared
                example_contexts [0; 0; 0; 0; 0]%nat cf eq_refl
                example_contexts_ready Hrun) as [Hexcl Hlocked].
  pose proof Hrun as Hcf. vm_compute in Hcf. injection Hcf as <-.
  eexists _, _. split; [exact Hrun |]. split; [reflexivity |].
  split; [| by split].
  eexists _, _. split; [reflexivity |]. cbn. by split_and!.
Defined.

Lemma leaked_guard_stalls_witness :
  ∃ cf,
    run_schedule example_kernel 1 [0; 1; 0; 1]%nat
      (initial_config example_leaked example_contexts) = Some cf ∧
    cfg_shm cf = example_leaked ∧
    (∀ i, returns_of i (cfg_hist cf) = []) ∧
    ∀ i t0 t, example_contexts !! i = Some t0 → ctx_todo t0 ≠ [] →
              cfg_ctxs cf !! i = Some t → ¬ context_finished t.
Proof.
  eexists. split; [reflexivity |].
  apply (leaked_guard_stalls example_kernel 1 example_leaked
           example_contexts {| sema := Locked; value := 5 |}
           [0; 1; 0; 1]%nat);
    [reflexivity | reflexivity | repeat constructor | reflexivity].
Defined.

Lemma every_call_can_complete_witness :
  ∃ cf sched' cf',
    run_schedule example_kernel 1 [0; 0; 1; 1]%nat
      (initial_config example_shared example_contexts) = Some cf ∧
    run_schedule example_kernel 1 sched' cf = Some cf' ∧
    Forall context_finished (cfg_ctxs cf').
Proof.
  destruct (run_schedule_inv example_kernel 1 0 example_contexts
              [0; 0; 1; 1]%nat _
              (initial_config_inv example_kernel 1 0 example_shared
                 example_contexts eq_refl example_contexts_ready))
    as (cf & Hrun & _).
  destruct (every_call_can_complete example_kernel 1 0 example_shared
              example_contexts [0; 0; 1; 1]%nat cf eq_refl
              example_contexts_ready Hrun) as (sched' & cf' & Hrun' & Hfin).
  by exists cf, sched', cf'.
Defined.
